(** * Chavitos queue page: the queue logic of [src/components/Queue.tsx]

    The component keeps an ordered list of queue members in React state and
    offers two handlers, [handleNameSubmit] (join) and
    [handleRemoveFromQueue] (leave), a pure formatter
    [calculateEstimatedWaitTime], and the derived value [userPosition].

    Embedding.
    - A JavaScript string is its sequence of UTF-16 code units, [list N];
      [===] on strings is equality of these sequences.
    - A JavaScript number is modelled by [Z].  Every number the component
      handles is an integer (ids, array indexes, minutes); IEEE doubles are
      exact on integers up to 2^53 ([MAX_EXACT_INTEGER]), far above any
      array length.  The two computations that could leave this range, the
      id [Math.max(...) + 1] and the minutes [position * 5], are stated
      with the bound as a hypothesis.
    - [new Date()] is passed in as the millisecond timestamp [now].
    - A handler reads the state of the render it was created in and issues
      [set...] calls; the model is the function from that state to the state
      of the next render.
    - [String.prototype.toUpperCase] belongs to the JavaScript engine, not to
      the repository; the model takes it as a parameter [toUpperCase]. *)

From Stdlib Require Import String Ascii DecimalString.
From Stdlib Require Import List Sorted ZArith NArith Bool Lia.
Import ListNotations.

Local Open Scope Z_scope.

(** ** JavaScript strings *)

Definition jsstring := list N.

(** A string literal of the source: its code units (Basic Latin only). *)
Definition js (s : string) : jsstring :=
  map N_of_ascii (list_ascii_of_string s).

Fixpoint jsstring_eqb (a b : jsstring) : bool :=
  match a, b with
  | [], [] => true
  | x :: a', y :: b' => N.eqb x y && jsstring_eqb a' b'
  | _, _ => false
  end.

(** [WhiteSpace] and [LineTerminator] of ECMAScript, the code units removed
    by [String.prototype.trim]. *)
Definition isWhiteSpace (c : N) : bool :=
  match c with
  | 9%N | 10%N | 11%N | 12%N | 13%N | 32%N | 160%N
  | 5760%N | 8232%N | 8233%N | 8239%N | 8287%N | 12288%N | 65279%N => true
  | _ => N.leb 8192 c && N.leb c 8202
  end.

Fixpoint dropWhile {A} (p : A -> bool) (l : list A) : list A :=
  match l with
  | [] => []
  | x :: r => if p x then dropWhile p r else l
  end.

Definition trimStart (s : jsstring) : jsstring := dropWhile isWhiteSpace s.
Definition trimEnd (s : jsstring) : jsstring := rev (dropWhile isWhiteSpace (rev s)).

(** [s.trim()] *)
Definition trim (s : jsstring) : jsstring := trimEnd (trimStart s).

(** [s.split(sep)] for a separator of one code unit satisfying [p]: the
    pieces between separators, empty pieces kept; never the empty array. *)
Fixpoint splitOn (p : N -> bool) (s : jsstring) : list jsstring :=
  match s with
  | [] => [[]]
  | c :: r =>
      if p c then [] :: splitOn p r
      else match splitOn p r with
           | t :: ts => (c :: t) :: ts
           | [] => [[c]]
           end
  end.

Definition SPACE : N := 32%N.

(** [s.split(' ')] *)
Definition split_space (s : jsstring) : list jsstring := splitOn (N.eqb SPACE) s.

(** [s.charAt(0)]: the first code unit as a string, or the empty string. *)
Definition charAt0 (s : jsstring) : jsstring := firstn 1 s.

(** [String(n)] for an integer [n]: an optional minus sign and the decimal
    digits. *)
Definition numberToString (n : Z) : jsstring :=
  js (NilZero.string_of_int (Z.to_int n)).

(** A Basic Latin instance of [toUpperCase], exact on code units below 128
    and the identity elsewhere; used to run the model on ASCII inputs. *)
Definition upperBasicLatin (s : jsstring) : jsstring :=
  map (fun c => if N.leb 97 c && N.leb c 122 then (c - 32)%N else c) s.

(** ** The data model *)

(** [interface QueueMember] *)
Record QueueMember := {
  id : Z;
  firstName : jsstring;
  lastInitial : jsstring;
  joinedTime : Z
}.

(** The [useState] cells of [QueuePage]. *)
Record State := {
  userName : jsstring;
  userFirstName : jsstring;
  userLastInitial : jsstring;
  isInQueue : bool;
  showAddForm : bool;
  formError : jsstring;
  queueList : list QueueMember
}.

(** The initial value of [queueList]; [now0] is [Date.now()] at the first
    render. *)
Definition initialQueue (now0 : Z) : list QueueMember :=
  [ {| id := 1; firstName := js "John"; lastInitial := js "D";
       joinedTime := now0 - 15 * 60000 |};
    {| id := 2; firstName := js "Jane"; lastInitial := js "S";
       joinedTime := now0 - 10 * 60000 |};
    {| id := 3; firstName := js "Mike"; lastInitial := js "J";
       joinedTime := now0 - 5 * 60000 |} ].

Definition initialState (now0 : Z) : State :=
  {| userName := []; userFirstName := []; userLastInitial := [];
     isInQueue := false; showAddForm := false; formError := [];
     queueList := initialQueue now0 |}.

(** The callback
    [member => member.firstName === fn && member.lastInitial === li]
    passed to [some], [filter] (negated) and [find]. *)
Definition sameKey (fn li : jsstring) (member : QueueMember) : bool :=
  jsstring_eqb (firstName member) fn && jsstring_eqb (lastInitial member) li.

(** [===] on two members.  The source compares object references; the
    model compares the four fields.  [indexOf] is only ever applied to the
    member [find] has just returned from the same list, where the two
    comparisons single out the same index (lemma [indexOf_find]). *)
Definition QueueMember_eqb (a b : QueueMember) : bool :=
  Z.eqb (id a) (id b) && jsstring_eqb (firstName a) (firstName b)
  && jsstring_eqb (lastInitial a) (lastInitial b)
  && Z.eqb (joinedTime a) (joinedTime b).

(** Every integer of magnitude up to [2^53] is a double, and a sum, product
    or quotient of such integers is computed exactly as long as the exact
    result stays within that magnitude.  Within this range the arithmetic
    of the source is the arithmetic on [Z] below. *)
Definition MAX_EXACT_INTEGER : Z := 9007199254740992.

(** The ids present are below [2^53], so that [Math.max(...ids, 0) + 1] is
    exact. *)
Definition idsExact (q : list QueueMember) : Prop :=
  forall m, In m q -> id m < MAX_EXACT_INTEGER.

(** [Math.max(...xs, z)] *)
Definition Math_max (xs : list Z) (z : Z) : Z := fold_right Z.max z xs.

(** [l.indexOf(m)], [-1] when absent; [i] is the index of the head of [l]. *)
Fixpoint indexOfFrom (i : Z) (l : list QueueMember) (m : QueueMember) : Z :=
  match l with
  | [] => -1
  | x :: r => if QueueMember_eqb x m then i else indexOfFrom (i + 1) r m
  end.

Definition indexOf (l : list QueueMember) (m : QueueMember) : Z :=
  indexOfFrom 0 l m.

(** ** The handlers *)

Definition setFormError (msg : jsstring) (s : State) : State :=
  {| userName := userName s; userFirstName := userFirstName s;
     userLastInitial := userLastInitial s; isInQueue := isInQueue s;
     showAddForm := showAddForm s; formError := msg;
     queueList := queueList s |}.

(** [onChange] of the name input: [setUserName(e.target.value)] and
    [setFormError('')]. *)
Definition onNameChange (value : jsstring) (s : State) : State :=
  {| userName := value; userFirstName := userFirstName s;
     userLastInitial := userLastInitial s; isInQueue := isInQueue s;
     showAddForm := showAddForm s; formError := [];
     queueList := queueList s |}.

Section Handlers.

(** [String.prototype.toUpperCase] of the engine. *)
Variable toUpperCase : jsstring -> jsstring.

(** Lines 48-51 of [handleNameSubmit]: the name parts, the first name and
    the last initial.  [split] never returns the empty array, so both
    array reads are in range. *)
Definition parseName (userName : jsstring) : jsstring * jsstring :=
  let nameParts := split_space (trim userName) in
  let firstName := nth 0 nameParts [] in
  let lastInitial :=
    if (1 <? length nameParts)%nat
    then toUpperCase (charAt0 (nth (length nameParts - 1) nameParts []))
    else [] in
  (firstName, lastInitial).

(** The new id is [Math.max(...ids, 0) + 1]; the sum on [Z] is the sum of
    the source while the ids present are below [MAX_EXACT_INTEGER]
    ([idsExact]). *)
Definition handleNameSubmit (now : Z) (s : State) : State :=
  match trim (userName s) with
  | [] => setFormError (js "Please enter your name") s
  | _ :: _ =>
      let (firstName, lastInitial) := parseName (userName s) in
      let userExists := existsb (sameKey firstName lastInitial) (queueList s) in
      if userExists then setFormError (js "You are already in the queue") s
      else
        let newMember :=
          {| id := Math_max (map id (queueList s)) 0 + 1;
             firstName := firstName;
             lastInitial := lastInitial;
             joinedTime := now |} in
        {| userName := [];
           userFirstName := firstName;
           userLastInitial := lastInitial;
           isInQueue := true;
           showAddForm := false;
           formError := [];
           queueList := queueList s ++ [newMember] |}
  end.

End Handlers.

Definition handleRemoveFromQueue (s : State) : State :=
  let updatedQueue :=
    filter (fun member =>
              negb (sameKey (userFirstName s) (userLastInitial s) member))
           (queueList s) in
  {| userName := userName s; userFirstName := []; userLastInitial := [];
     isInQueue := false; showAddForm := showAddForm s;
     formError := formError s; queueList := updatedQueue |}.

(** [Math.floor(x / 60)] is the floor quotient and [x % 60] the truncated
    remainder; product, quotient and remainder on [Z] are those of the
    source while [position * 5] is within [MAX_EXACT_INTEGER] in
    magnitude. *)
Definition calculateEstimatedWaitTime (position : Z) : jsstring :=
  let estimatedMinutes := position * 5 in
  let hours := estimatedMinutes / 60 in
  let minutes := Z.rem estimatedMinutes 60 in
  if 0 <? hours
  then numberToString hours ++ js "h " ++ numberToString minutes ++ js "m"
  else numberToString minutes ++ js "m".

(** The 1-based position of the first member with key [(fn, li)]:
    [find] followed by [indexOf(...) + 1], or [null]. *)
Definition position (fn li : jsstring) (q : list QueueMember) : option Z :=
  match find (sameKey fn li) q with
  | Some userQueueMember => Some (indexOf q userQueueMember + 1)
  | None => None
  end.

Definition userPosition (s : State) : option Z :=
  position (userFirstName s) (userLastInitial s) (queueList s).

(** ** The store operations of the specification, built from the handlers *)

(** The error kinds of the specification.  The component surfaces a failure
    only as the text of [formError]; the two texts of the source are the
    validation and the duplicate message, and no text stands for a missing
    member. *)
Inductive QueueError := ValidationError | DuplicateError | NotFoundError.

Definition errorOfMessage (msg : jsstring) : option QueueError :=
  if jsstring_eqb msg (js "Please enter your name") then Some ValidationError
  else if jsstring_eqb msg (js "You are already in the queue")
       then Some DuplicateError
       else None.

(** The error on display after a handler has run, if any. *)
Definition surfacedError (s : State) : option QueueError :=
  errorOfMessage (formError s).

(** The session's identity key becomes [(fn, li)]. *)
Definition withUser (fn li : jsstring) (s : State) : State :=
  {| userName := userName s; userFirstName := fn; userLastInitial := li;
     isInQueue := isInQueue s; showAddForm := showAddForm s;
     formError := formError s; queueList := queueList s |}.

(** [leave(identityKey)]: the Leave button pressed in a session whose
    identity key is [(fn, li)]. *)
Definition leave (fn li : jsstring) (s : State) : State :=
  handleRemoveFromQueue (withUser fn li s).

(** The members a handler run has appended: those of [q'] behind the
    length of [q]. *)
Definition appended (q q' : list QueueMember) : list QueueMember :=
  skipn (length q) q'.

Inductive Op :=
| Join (raw : jsstring) (now : Z)
| Leave (fn li : jsstring).

Section Store.

Variable toUpperCase : jsstring -> jsstring.

(** [join(rawName)]: the name typed into the form, then the form
    submitted at time [now]. *)
Definition join (raw : jsstring) (now : Z) (s : State) : State :=
  handleNameSubmit toUpperCase now (onNameChange raw s).

Definition step (s : State) (op : Op) : State :=
  match op with
  | Join raw now => join raw now s
  | Leave fn li => leave fn li s
  end.

Definition run (ops : list Op) (s : State) : State := fold_left step ops s.

(** Every member inserted so far, those that have left included: [hist]
    extended by what each operation of [ops] appends. *)
Fixpoint everInserted (ops : list Op) (s : State) (hist : list QueueMember)
  : list QueueMember :=
  match ops with
  | [] => hist
  | op :: rest =>
      let s' := step s op in
      everInserted rest s' (hist ++ appended (queueList s) (queueList s'))
  end.

Definition nonEmpty (t : jsstring) : bool := negb (Nat.eqb (length t) 0).

(** The tokens of a split on whitespace: the non-empty pieces between
    whitespace units. *)
Definition tokens (raw : jsstring) : list jsstring :=
  filter nonEmpty (splitOn isWhiteSpace raw).

(** The parse in the words of the specification, to compare [parseName]
    with: split on whitespace, first name the first token, last initial the
    upper-cased first character of the last token when there is more than
    one token, else the empty string. *)
Definition parseName_spec (raw : jsstring) : jsstring * jsstring :=
  let ts := tokens raw in
  (hd [] ts,
   if (1 <? length ts)%nat then toUpperCase (charAt0 (last ts [])) else []).

End Store.

(** The whole history of a run from the first render. *)
Definition history (toUpperCase : jsstring -> jsstring) (now0 : Z)
    (ops : list Op) : list QueueMember :=
  everInserted toUpperCase ops (initialState now0) (initialQueue now0).

(** The identity key of a member, and the uniqueness invariant of the
    specification: no two members present carry the same key. *)
Definition identityKey (m : QueueMember) : jsstring * jsstring :=
  (firstName m, lastInitial m).

Definition uniqueKeys (q : list QueueMember) : Prop :=
  NoDup (map identityKey q).

(** The ids of the members present, strictly increasing in queue order. *)
Definition idsIncreasing (q : list QueueMember) : Prop :=
  StronglySorted Z.lt (map id q).

(** ** The rendered page and its controls *)

(** [onClick] of the Join Queue button: [setShowAddForm(true)]. *)
Definition openForm (s : State) : State :=
  {| userName := userName s; userFirstName := userFirstName s;
     userLastInitial := userLastInitial s; isInQueue := isInQueue s;
     showAddForm := true; formError := formError s;
     queueList := queueList s |}.

(** [onClick] of the Cancel button: [setShowAddForm(false)],
    [setFormError('')], [setUserName('')]. *)
Definition cancelForm (s : State) : State :=
  {| userName := []; userFirstName := userFirstName s;
     userLastInitial := userLastInitial s; isInQueue := isInQueue s;
     showAddForm := false; formError := [];
     queueList := queueList s |}.

(** Truthiness of [userPosition] in [isInQueue && userPosition]: a number
    other than 0, not [null]. *)
Definition truthy (p : option Z) : bool :=
  match p with
  | Some n => negb (n =? 0)
  | None => false
  end.

(** The status panel, with the Leave Queue button inside it, is rendered
    under [isInQueue && userPosition]. *)
Definition statusShown (s : State) : bool :=
  isInQueue s && truthy (userPosition s).

(** The Join Queue button is rendered under [!isInQueue]. *)
Definition joinButtonShown (s : State) : bool := negb (isInQueue s).

(** The form (input, Join and Cancel) is rendered under [showAddForm]. *)
Definition formShown (s : State) : bool := showAddForm s.

(** What one entry of [queueList.map((member, index) => ...)] shows. *)
Record Row := {
  rowKey : Z;
  badge : Z;
  nameText : jsstring;
  isCurrentUser : bool;
  waitTime : jsstring
}.

(** [{first} {initial}.] as rendered text. *)
Definition displayName (first initial : jsstring) : jsstring :=
  first ++ js " " ++ initial ++ js ".".

Definition renderRow (fn li : jsstring) (member : QueueMember) (index : Z)
  : Row :=
  {| rowKey := id member;
     badge := index + 1;
     nameText := displayName (firstName member) (lastInitial member);
     isCurrentUser := sameKey fn li member;
     waitTime := calculateEstimatedWaitTime (index + 1) |}.

(** [q.map((member, index) => ...)], [index] being the index of the head. *)
Fixpoint rowsFrom (index : Z) (fn li : jsstring) (q : list QueueMember)
  : list Row :=
  match q with
  | [] => []
  | member :: r => renderRow fn li member index :: rowsFrom (index + 1) fn li r
  end.

Definition rows (s : State) : list Row :=
  rowsFrom 0 (userFirstName s) (userLastInitial s) (queueList s).

(** The events of the page.  An event reaches its handler only when the
    control it comes from is rendered. *)
Inductive Event :=
| ClickJoinQueue
| TypeName (value : jsstring)
| SubmitForm (now : Z)
| ClickCancel
| ClickLeave.

Definition dispatch (toUpperCase : jsstring -> jsstring) (s : State)
    (e : Event) : option State :=
  match e with
  | ClickJoinQueue => if joinButtonShown s then Some (openForm s) else None
  | TypeName value => if formShown s then Some (onNameChange value s) else None
  | SubmitForm now =>
      if formShown s then Some (handleNameSubmit toUpperCase now s) else None
  | ClickCancel => if formShown s then Some (cancelForm s) else None
  | ClickLeave => if statusShown s then Some (handleRemoveFromQueue s) else None
  end.

(** A session: the events in order from the first render; [None] when an
    event names a control that is not on the page. *)
Fixpoint session (toUpperCase : jsstring -> jsstring) (events : list Event)
    (s : State) : option State :=
  match events with
  | [] => Some s
  | e :: rest =>
      match dispatch toUpperCase s e with
      | Some s' => session toUpperCase rest s'
      | None => None
      end
  end.

(** A first name as the parse produces it: not empty and without a space. *)
Definition properFirstName (m : QueueMember) : Prop :=
  firstName m <> [] /\ ~ In SPACE (firstName m).

(** What the queue keeps along every run: increasing ids, pairwise
    different keys, proper first names. *)
Definition queueInvariant (q : list QueueMember) : Prop :=
  idsIncreasing q /\ uniqueKeys q /\ Forall properFirstName q.

(** What a session keeps between the page's cells. *)
Definition sessionInvariant (s : State) : Prop :=
  queueInvariant (queueList s) /\
  (showAddForm s = true -> isInQueue s = false) /\
  (showAddForm s = false -> userName s = [] /\ formError s = []) /\
  (isInQueue s = false -> userFirstName s = [] /\ userLastInitial s = []) /\
  (isInQueue s = true ->
     existsb (sameKey (userFirstName s) (userLastInitial s)) (queueList s)
     = true).

(** The list of a session that started at [now0]: the three initial
    members, followed by the session's own entry while it is in the
    queue. *)
Definition seedPlusOwn (now0 : Z) (s : State) : Prop :=
  (isInQueue s = false /\ queueList s = initialQueue now0) \/
  (isInQueue s = true /\
   exists t, queueList s =
     initialQueue now0 ++
     [ {| id := 4; firstName := userFirstName s;
          lastInitial := userLastInitial s; joinedTime := t |} ]).

(** * Properties *)

(** ** Strings and lists *)

Lemma jsstring_eqb_eq (a b : jsstring) : jsstring_eqb a b = true <-> a = b.
Proof.
  revert b; induction a as [|x a IH]; intros [|y b]; simpl;
    try (split; [discriminate | discriminate]); try tauto.
  rewrite andb_true_iff, N.eqb_eq, IH.
  split; [intros [-> ->]; reflexivity | intros E; injection E; auto].
Qed.

Lemma jsstring_eqb_refl (a : jsstring) : jsstring_eqb a a = true.
Proof. apply jsstring_eqb_eq; reflexivity. Qed.

Lemma sameKey_true fn li m :
  sameKey fn li m = true <-> firstName m = fn /\ lastInitial m = li.
Proof.
  unfold sameKey. now rewrite andb_true_iff, !jsstring_eqb_eq.
Qed.

Lemma QueueMember_eqb_refl m : QueueMember_eqb m m = true.
Proof.
  unfold QueueMember_eqb. now rewrite !Z.eqb_refl, !jsstring_eqb_refl.
Qed.

Lemma QueueMember_eqb_sameKey fn li a b :
  QueueMember_eqb a b = true -> sameKey fn li a = sameKey fn li b.
Proof.
  unfold QueueMember_eqb, sameKey. rewrite !andb_true_iff, !jsstring_eqb_eq.
  intros [[[_ ->] ->] _]. reflexivity.
Qed.

Lemma dropWhile_all {A} (p : A -> bool) l :
  Forall (fun x => p x = true) l -> dropWhile p l = [].
Proof. induction 1 as [|x l Hx _ IH]; simpl; [|rewrite Hx]; auto. Qed.

Lemma dropWhile_head {A} (p : A -> bool) l x r :
  dropWhile p l = x :: r -> p x = false.
Proof.
  induction l as [|y l IH]; simpl; [discriminate|].
  destruct (p y) eqn:E; [exact IH|]. intros H; injection H as -> _. exact E.
Qed.

Lemma dropWhile_suffix {A} (p : A -> bool) l :
  exists pre, l = pre ++ dropWhile p l /\ Forall (fun x => p x = true) pre.
Proof.
  induction l as [|y l (pre & E & F)]; simpl.
  - exists []; auto.
  - destruct (p y) eqn:Py.
    + exists (y :: pre); split; [simpl; congruence | constructor; auto].
    + exists []; auto.
Qed.

(** An input made of whitespace only trims to the empty string. *)
Lemma trim_whitespace s :
  Forall (fun c => isWhiteSpace c = true) s -> trim s = [].
Proof.
  intros H. unfold trim, trimStart, trimEnd.
  now rewrite (dropWhile_all _ _ H).
Qed.

(** A non-empty trimmed string starts and ends with a non-whitespace unit. *)
Lemma trim_ends s c r :
  trim s = c :: r ->
  isWhiteSpace c = false /\ isWhiteSpace (last (c :: r) c) = false.
Proof.
  unfold trim, trimEnd, trimStart. intros H.
  remember (dropWhile isWhiteSpace s) as A eqn:EA.
  destruct (dropWhile_suffix isWhiteSpace (rev A)) as (pre & Epre & _).
  remember (dropWhile isWhiteSpace (rev A)) as D eqn:ED.
  assert (HA : A = (c :: r) ++ rev pre).
  { rewrite <- (rev_involutive A), Epre, rev_app_distr. now rewrite H. }
  split.
  - apply (dropWhile_head isWhiteSpace s c (r ++ rev pre)).
    rewrite <- EA. exact HA.
  - destruct D as [|z t]; [discriminate|].
    simpl in H. rewrite <- H, last_last.
    apply (dropWhile_head isWhiteSpace (rev A) z t). now symmetry.
Qed.

Lemma Math_max_lower xs z : z <= Math_max xs z.
Proof. induction xs as [|x xs IH]; simpl; lia. Qed.

Lemma Math_max_upper xs z x : In x xs -> x <= Math_max xs z.
Proof.
  induction xs as [|y xs IH]; simpl; [tauto|].
  intros [-> | H]; [|specialize (IH H)]; lia.
Qed.

Lemma Math_max_below xs z b :
  z < b -> (forall x, In x xs -> x < b) -> Math_max xs z < b.
Proof.
  intros Hz. induction xs as [|y xs IH]; simpl; intros H; [exact Hz|].
  pose proof (H y (or_introl eq_refl)).
  specialize (IH (fun x Hx => H x (or_intror Hx))).
  lia.
Qed.

Lemma existsb_false {A} (p : A -> bool) l :
  existsb p l = false <-> forall x, In x l -> p x = false.
Proof.
  induction l as [|y l IH]; simpl.
  - split; [intros _ x [] | reflexivity].
  - rewrite orb_false_iff, IH. split.
    + intros [Hy Hl] x [<- | Hx]; auto.
    + intros H; split; [apply H; auto | intros x Hx; apply H; auto].
Qed.

(** A key is absent from the list exactly when [some] answers false. *)
Lemma absent_existsb fn li q :
  (forall m, In m q -> ~ (firstName m = fn /\ lastInitial m = li)) <->
  existsb (sameKey fn li) q = false.
Proof.
  rewrite existsb_false. split; intros H m Hm.
  - destruct (sameKey fn li m) eqn:E; [|reflexivity].
    apply sameKey_true in E. now destruct (H m Hm).
  - intros E. apply sameKey_true in E. specialize (H m Hm). congruence.
Qed.

Lemma find_absent {A} (p : A -> bool) l : existsb p l = false -> find p l = None.
Proof.
  induction l as [|y l IH]; simpl; [reflexivity|].
  rewrite orb_false_iff. intros [-> H]. auto.
Qed.

Lemma position_absent fn li q :
  existsb (sameKey fn li) q = false -> position fn li q = None.
Proof. intros H. unfold position. now rewrite (find_absent _ _ H). Qed.

(** [find] returns the first member with the key, and [indexOf] of that
    member is its index: comparing by fields or by reference cannot tell
    an earlier element from it, for such an element would carry the key. *)
Lemma indexOfFrom_find fn li q m i :
  find (sameKey fn li) q = Some m ->
  exists pre post,
    q = pre ++ m :: post /\ existsb (sameKey fn li) pre = false /\
    indexOfFrom i q m = i + Z.of_nat (length pre).
Proof.
  revert i. induction q as [|x q IH]; intros i H; simpl in *; [discriminate|].
  destruct (sameKey fn li x) eqn:Kx.
  - injection H as ->. exists [], q. rewrite QueueMember_eqb_refl. simpl.
    repeat split; lia.
  - assert (Km : sameKey fn li m = true)
      by (apply find_some in H; tauto).
    destruct (IH (i + 1) H) as (pre & post & -> & Hpre & Hi).
    exists (x :: pre), post. simpl. rewrite Kx, Hpre.
    destruct (QueueMember_eqb x m) eqn:E.
    + rewrite (QueueMember_eqb_sameKey fn li _ _ E) in Kx. congruence.
    + repeat split. rewrite Hi. lia.
Qed.

Lemma indexOf_find fn li q m :
  find (sameKey fn li) q = Some m ->
  exists pre post,
    q = pre ++ m :: post /\ existsb (sameKey fn li) pre = false /\
    indexOf q m = Z.of_nat (length pre).
Proof. intros H. exact (indexOfFrom_find fn li q m 0 H). Qed.

(** The position of a key is one more than the number of members in front
    of the first member that carries it. *)
Lemma position_split fn li pre m post :
  existsb (sameKey fn li) pre = false -> sameKey fn li m = true ->
  position fn li (pre ++ m :: post) = Some (Z.of_nat (length pre) + 1).
Proof.
  intros Hpre Hm. unfold position.
  assert (F : find (sameKey fn li) (pre ++ m :: post) = Some m).
  { clear -Hpre Hm. induction pre as [|x pre IH]; simpl in *.
    - now rewrite Hm.
    - apply orb_false_iff in Hpre as [-> Hpre]. auto. }
  rewrite F. destruct (indexOf_find _ _ _ _ F) as (pre' & post' & E & Hpre' & ->).
  enough (length pre' = length pre) by congruence.
  clear F. revert pre' E Hpre'.
  induction pre as [|x pre IH]; intros [|y pre'] E Hpre'; simpl in *;
    try reflexivity.
  - injection E as <- _. apply orb_false_iff in Hpre' as [K _]. congruence.
  - injection E as -> _. apply orb_false_iff in Hpre as [K _]. congruence.
  - injection E as <- E. apply orb_false_iff in Hpre as [_ Hpre].
    apply orb_false_iff in Hpre' as [_ Hpre']. f_equal. eauto.
Qed.

(** ** The three outcomes of [join] *)

Section JoinOutcomes.

Variable toUpperCase : jsstring -> jsstring.

Lemma join_empty raw now s :
  trim raw = [] ->
  join toUpperCase raw now s =
  setFormError (js "Please enter your name") (onNameChange raw s).
Proof. intros H. unfold join, handleNameSubmit. simpl. now rewrite H. Qed.

Lemma join_duplicate raw now s :
  trim raw <> [] ->
  existsb (sameKey (fst (parseName toUpperCase raw))
                   (snd (parseName toUpperCase raw))) (queueList s) = true ->
  join toUpperCase raw now s =
  setFormError (js "You are already in the queue") (onNameChange raw s).
Proof.
  intros Hne Hex. unfold join, handleNameSubmit. simpl userName.
  destruct (trim raw) as [|c r]; [congruence|].
  destruct (parseName toUpperCase raw) as [fn li]. simpl in *.
  now rewrite Hex.
Qed.

Lemma join_success raw now s :
  trim raw <> [] ->
  existsb (sameKey (fst (parseName toUpperCase raw))
                   (snd (parseName toUpperCase raw))) (queueList s) = false ->
  join toUpperCase raw now s =
  {| userName := [];
     userFirstName := fst (parseName toUpperCase raw);
     userLastInitial := snd (parseName toUpperCase raw);
     isInQueue := true; showAddForm := false; formError := [];
     queueList :=
       queueList s ++
       [ {| id := Math_max (map id (queueList s)) 0 + 1;
            firstName := fst (parseName toUpperCase raw);
            lastInitial := snd (parseName toUpperCase raw);
            joinedTime := now |} ] |}.
Proof.
  intros Hne Hex. unfold join, handleNameSubmit. simpl userName.
  destruct (trim raw) as [|c r]; [congruence|].
  destruct (parseName toUpperCase raw) as [fn li]. simpl in *.
  now rewrite Hex.
Qed.

(** The list after a join is the list before, or the list before with one
    member appended whose id is above every id present. *)
Lemma join_queueList raw now s :
  queueList (join toUpperCase raw now s) = queueList s \/
  exists m, queueList (join toUpperCase raw now s) = queueList s ++ [m] /\
            id m = Math_max (map id (queueList s)) 0 + 1.
Proof.
  destruct (trim raw) as [|c r] eqn:T.
  - left. now rewrite join_empty.
  - assert (Hne : trim raw <> []) by congruence.
    destruct (existsb (sameKey (fst (parseName toUpperCase raw))
                (snd (parseName toUpperCase raw))) (queueList s)) eqn:E.
    + left. now rewrite join_duplicate.
    + right. rewrite (join_success _ _ _ Hne E). simpl. eauto.
Qed.

End JoinOutcomes.

(** ** The store operations are the handlers *)

(** Submitting the form is [join] of the name the form holds. *)
Lemma join_userName (toUpperCase : jsstring -> jsstring) now s :
  join toUpperCase (userName s) now s = handleNameSubmit toUpperCase now s.
Proof.
  unfold join, handleNameSubmit. simpl userName.
  destruct (trim (userName s)); [reflexivity|].
  destruct (parseName toUpperCase (userName s)) as [fn li]. simpl.
  destruct (existsb (sameKey fn li) (queueList s)); reflexivity.
Qed.

(** Pressing the Leave button is [leave] of the session's own key. *)
Lemma leave_own_key s :
  leave (userFirstName s) (userLastInitial s) s = handleRemoveFromQueue s.
Proof. destruct s. reflexivity. Qed.

(** ** Claims about [join] *)

(** C1. A join whose trimmed name is not empty and whose parsed identity key
    is carried by no member present, on a list whose ids are below 2^53
    (where the addition of the source is exact), appends one member at the
    end of the list, with id [Math.max(ids, 0) + 1], the parsed key and
    [joinedTime = now]; the id is positive and at most 2^53; no error is on
    display; the position of the key, and the session's own position, is
    then the new length of the list. *)
Theorem join_appends_and_ranks (toUpperCase : jsstring -> jsstring)
    (raw : jsstring) (now : Z) (s : State) :
  trim raw <> [] ->
  (forall m, In m (queueList s) ->
     ~ (firstName m = fst (parseName toUpperCase raw) /\
        lastInitial m = snd (parseName toUpperCase raw))) ->
  idsExact (queueList s) ->
  let s' := join toUpperCase raw now s in
  let newMember :=
    {| id := Math_max (map id (queueList s)) 0 + 1;
       firstName := fst (parseName toUpperCase raw);
       lastInitial := snd (parseName toUpperCase raw);
       joinedTime := now |} in
  queueList s' = queueList s ++ [newMember] /\
  0 < id newMember <= MAX_EXACT_INTEGER /\
  surfacedError s' = None /\
  length (queueList s') = S (length (queueList s)) /\
  position (firstName newMember) (lastInitial newMember) (queueList s')
    = Some (Z.of_nat (length (queueList s'))) /\
  userPosition s' = Some (Z.of_nat (length (queueList s'))).
Proof.
  intros Hne Habs Hex s' newMember.
  apply absent_existsb in Habs.
  assert (E : s' = _) by exact (join_success toUpperCase raw now s Hne Habs).
  assert (P : position (firstName newMember) (lastInitial newMember)
                (queueList s ++ [newMember])
              = Some (Z.of_nat (length (queueList s ++ [newMember])))).
  { rewrite position_split; [|exact Habs|now apply sameKey_true].
    rewrite length_app. simpl. f_equal. lia. }
  assert (B : 0 < id newMember <= MAX_EXACT_INTEGER).
  { pose proof (Math_max_lower (map id (queueList s)) 0) as L.
    pose proof (Math_max_below (map id (queueList s)) 0 MAX_EXACT_INTEGER) as Up.
    cbn [id newMember]. split; [lia|].
    enough (Math_max (map id (queueList s)) 0 < MAX_EXACT_INTEGER) by lia.
    apply Up; [reflexivity|]. intros x Hx.
    apply in_map_iff in Hx as (m & <- & Hm). now apply Hex. }
  rewrite E. unfold userPosition. simpl queueList. simpl userFirstName.
  simpl userLastInitial. repeat split; try exact P; try apply B.
  rewrite length_app. simpl. lia.
Qed.

(** C2. A join whose trimmed name is not empty and whose parsed identity key
    equals, unit for unit, the key of a member present fails with the
    duplicate error and leaves the list as it was; with an upper-casing
    that keeps [D], joining [John Doe] on the initial list is such a
    failure. *)
Theorem join_duplicate_rejected (toUpperCase : jsstring -> jsstring) :
  (forall raw now s,
     trim raw <> [] ->
     (exists m, In m (queueList s) /\
        firstName m = fst (parseName toUpperCase raw) /\
        lastInitial m = snd (parseName toUpperCase raw)) ->
     surfacedError (join toUpperCase raw now s) = Some DuplicateError /\
     formError (join toUpperCase raw now s) = js "You are already in the queue" /\
     queueList (join toUpperCase raw now s) = queueList s) /\
  (toUpperCase (js "D") = js "D" ->
   forall now0 now,
     parseName toUpperCase (js "John Doe") = (js "John", js "D") /\
     surfacedError (join toUpperCase (js "John Doe") now (initialState now0))
       = Some DuplicateError /\
     queueList (join toUpperCase (js "John Doe") now (initialState now0))
       = initialQueue now0).
Proof.
  assert (G : forall raw now s,
     trim raw <> [] ->
     (exists m, In m (queueList s) /\
        firstName m = fst (parseName toUpperCase raw) /\
        lastInitial m = snd (parseName toUpperCase raw)) ->
     surfacedError (join toUpperCase raw now s) = Some DuplicateError /\
     formError (join toUpperCase raw now s) = js "You are already in the queue" /\
     queueList (join toUpperCase raw now s) = queueList s).
  { intros raw now s Hne (m & Hin & Hf & Hl).
    rewrite join_duplicate; [repeat split | exact Hne |].
    apply existsb_exists. exists m. split; [exact Hin|].
    now apply sameKey_true. }
  split; [exact G|].
  intros HD now0 now.
  assert (P : parseName toUpperCase (js "John Doe") = (js "John", js "D")).
  { unfold parseName. simpl. unfold charAt0. simpl. now rewrite <- HD. }
  split; [exact P|].
  destruct (G (js "John Doe") now (initialState now0)) as (A & _ & B).
  - discriminate.
  - rewrite P. eexists. split; [left; reflexivity|]. split; reflexivity.
  - split; assumption.
Qed.

(** C8. A join whose input is empty or made of whitespace only fails with
    the validation error: the only change is the message on display, and
    the list is as it was. *)
Theorem join_blank_rejected (toUpperCase : jsstring -> jsstring)
    (raw : jsstring) (now : Z) (s : State) :
  Forall (fun c => isWhiteSpace c = true) raw ->
  join toUpperCase raw now s =
    setFormError (js "Please enter your name") (onNameChange raw s) /\
  surfacedError (join toUpperCase raw now s) = Some ValidationError /\
  queueList (join toUpperCase raw now s) = queueList s.
Proof.
  intros H. rewrite (join_empty toUpperCase raw now s (trim_whitespace raw H)).
  repeat split.
Qed.

(** ** Claims about [leave] *)

Lemma filter_all {A} (p : A -> bool) l :
  (forall x, In x l -> p x = true) -> filter p l = l.
Proof.
  induction l as [|y l IH]; simpl; [reflexivity|]. intros H.
  rewrite (H y (or_introl eq_refl)). f_equal. apply IH. auto.
Qed.

Lemma leave_queueList fn li s :
  queueList (leave fn li s) =
  filter (fun member => negb (sameKey fn li member)) (queueList s).
Proof. reflexivity. Qed.

Lemma leave_absent_queueList fn li s :
  existsb (sameKey fn li) (queueList s) = false ->
  queueList (leave fn li s) = queueList s.
Proof.
  intros H. rewrite leave_queueList. apply filter_all. intros m Hm.
  rewrite existsb_false in H. now rewrite (H m Hm).
Qed.

(** C6, as the component has it. Leaving with an identity key that no member
    present carries is not a failure: the error text on display is the one
    that was there before, so no error of any kind is raised, and the
    session ends up out of the queue with its key cleared. *)
Theorem leave_absent_raises_nothing (fn li : jsstring) (s : State) :
  (forall m, In m (queueList s) -> ~ (firstName m = fn /\ lastInitial m = li)) ->
  formError (leave fn li s) = formError s /\
  surfacedError (leave fn li s) = surfacedError s /\
  surfacedError (leave fn li s) <> Some NotFoundError /\
  isInQueue (leave fn li s) = false /\
  userFirstName (leave fn li s) = [] /\ userLastInitial (leave fn li s) = [].
Proof.
  intros _. repeat split. unfold surfacedError, errorOfMessage. simpl.
  repeat match goal with |- context [if ?b then _ else _] => destruct b end;
    discriminate.
Qed.

(** C9. Leaving with an identity key that no member present carries goes
    through without an error and leaves the member list as it was: the
    state after it differs from the state before only in the session's own
    fields. *)
Theorem leave_absent_keeps_list (fn li : jsstring) (s : State) :
  (forall m, In m (queueList s) -> ~ (firstName m = fn /\ lastInitial m = li)) ->
  queueList (leave fn li s) = queueList s /\
  leave fn li s =
    {| userName := userName s; userFirstName := []; userLastInitial := [];
       isInQueue := false; showAddForm := showAddForm s;
       formError := formError s; queueList := queueList s |} /\
  (surfacedError s = None -> surfacedError (leave fn li s) = None).
Proof.
  intros H. apply absent_existsb in H.
  pose proof (leave_absent_queueList fn li s H) as Q.
  split; [exact Q|]. split; [|now intros E].
  unfold leave, handleRemoveFromQueue in *. simpl in *. now rewrite Q.
Qed.

(** C7. In a state whose members carry pairwise different keys, leaving
    with a key that is present removes exactly the member with that key:
    the list [pre ++ m :: post] becomes [pre ++ post], one shorter and in
    the same order, and the key has no position any more. *)
Theorem leave_removes_exactly_one (fn li : jsstring) (s : State) :
  uniqueKeys (queueList s) ->
  (exists m, In m (queueList s) /\ firstName m = fn /\ lastInitial m = li) ->
  exists pre m post,
    queueList s = pre ++ m :: post /\
    firstName m = fn /\ lastInitial m = li /\
    queueList (leave fn li s) = pre ++ post /\
    S (length (queueList (leave fn li s))) = length (queueList s) /\
    position fn li (queueList (leave fn li s)) = None.
Proof.
  intros U (m & Hin & Hf & Hl).
  destruct (in_split _ _ Hin) as (pre & post & E).
  exists pre, m, post. rewrite leave_queueList, E.
  unfold uniqueKeys in U. rewrite E, map_app in U. simpl in U.
  apply NoDup_remove_2 in U. rewrite <- map_app in U.
  assert (K : forall x, In x (pre ++ post) -> sameKey fn li x = false).
  { intros x Hx. destruct (sameKey fn li x) eqn:Kx; [|reflexivity].
    apply sameKey_true in Kx as [Kf Kl]. exfalso. apply U.
    apply in_map_iff. exists x. split; [|exact Hx].
    unfold identityKey. congruence. }
  assert (F : filter (fun member => negb (sameKey fn li member))
                (pre ++ m :: post) = pre ++ post).
  { rewrite filter_app. simpl.
    replace (sameKey fn li m) with true by (symmetry; now apply sameKey_true).
    simpl. f_equal; apply filter_all; intros x Hx; rewrite K; auto;
      apply in_or_app; auto. }
  rewrite F. repeat split; auto.
  - rewrite !length_app. simpl. lia.
  - apply position_absent. now apply existsb_false.
Qed.

(** ** The wait estimate *)

(** C4. For a positive position with [position * 5] at most 2^53 (where the
    arithmetic of the source is exact) the estimate is [position * 5]
    minutes, printed as the minutes alone below one hour and as whole hours
    followed by the remaining minutes from one hour on; positions 1, 12 and
    13 print as [5m], [1h 0m] and [1h 5m]. *)
Theorem calculateEstimatedWaitTime_format (position : Z) :
  0 < position ->
  position * 5 <= MAX_EXACT_INTEGER ->
  let minutes := position * 5 in
  (minutes < 60 ->
     calculateEstimatedWaitTime position = numberToString minutes ++ js "m") /\
  (60 <= minutes ->
     calculateEstimatedWaitTime position =
       numberToString (minutes / 60) ++ js "h " ++
       numberToString (minutes mod 60) ++ js "m") /\
  calculateEstimatedWaitTime 1 = js "5m" /\
  calculateEstimatedWaitTime 12 = js "1h 0m" /\
  calculateEstimatedWaitTime 13 = js "1h 5m".
Proof.
  intros Hpos _ minutes. unfold calculateEstimatedWaitTime. fold minutes.
  assert (0 <= minutes) by (unfold minutes; lia).
  repeat split.
  - intros Hlt. rewrite (Z.div_small minutes 60) by lia.
    simpl. now rewrite Z.rem_small by lia.
  - intros Hge.
    assert (0 < minutes / 60) by (apply Z.div_str_pos; lia).
    replace (0 <? minutes / 60) with true by (symmetry; apply Z.ltb_lt; lia).
    now rewrite Z.rem_mod_nonneg by lia.
Qed.

(** ** Ids along a run of operations *)

Lemma idsIncreasing_initial now0 : idsIncreasing (initialQueue now0).
Proof.
  unfold idsIncreasing. simpl.
  repeat (constructor; [|repeat constructor; lia]). constructor.
Qed.

Lemma idsIncreasing_filter (p : QueueMember -> bool) q :
  idsIncreasing q -> idsIncreasing (filter p q).
Proof.
  unfold idsIncreasing. induction q as [|x q IH]; simpl; [auto|].
  intros H. apply StronglySorted_inv in H as [Hq Hx].
  destruct (p x); [|auto]. simpl. constructor; [auto|].
  rewrite Forall_forall in *. intros y Hy. apply Hx.
  apply in_map_iff in Hy as (m & <- & Hm). apply in_map.
  apply filter_In in Hm. tauto.
Qed.

Lemma idsIncreasing_snoc q m :
  idsIncreasing q -> (forall x, In x q -> id x < id m) ->
  idsIncreasing (q ++ [m]).
Proof.
  unfold idsIncreasing. induction q as [|x q IH]; simpl; intros H L.
  - repeat constructor.
  - apply StronglySorted_inv in H as [Hq Hx]. constructor.
    + apply IH; auto.
    + rewrite map_app. apply Forall_app. split; [exact Hx|].
      repeat constructor. apply L. auto.
Qed.

Lemma idsIncreasing_NoDup q : idsIncreasing q -> NoDup (map id q).
Proof.
  unfold idsIncreasing. induction 1 as [|x l _ IH Hx]; constructor; [|exact IH].
  rewrite Forall_forall in Hx. intros Hin. specialize (Hx x Hin). lia.
Qed.

(** The id [Math.max(ids, 0) + 1] is positive and above every id present. *)
Lemma fresh_id_above q m :
  In m q -> id m < Math_max (map id q) 0 + 1.
Proof.
  intros H. pose proof (Math_max_upper (map id q) 0 (id m) (in_map id q m H)).
  lia.
Qed.

Lemma appended_same q : appended q q = [].
Proof. unfold appended. apply skipn_all. Qed.

Lemma appended_snoc q m : appended q (q ++ [m]) = [m].
Proof.
  unfold appended. rewrite skipn_app, skipn_all, Nat.sub_diag. reflexivity.
Qed.

Section Runs.

Variable toUpperCase : jsstring -> jsstring.

Lemma step_idsIncreasing s op :
  idsIncreasing (queueList s) -> idsIncreasing (queueList (step toUpperCase s op)).
Proof.
  intros H. destruct op as [raw now | fn li]; cbn [step].
  - destruct (join_queueList toUpperCase raw now s) as [-> | (m & -> & Hm)].
    + exact H.
    + apply idsIncreasing_snoc; [exact H|]. intros x Hx. rewrite Hm.
      now apply fresh_id_above.
  - rewrite leave_queueList. now apply idsIncreasing_filter.
Qed.

Lemma run_idsIncreasing ops s :
  idsIncreasing (queueList s) -> idsIncreasing (queueList (run toUpperCase ops s)).
Proof.
  revert s. induction ops as [|op ops IH]; intros s H; simpl; [exact H|].
  apply IH. now apply step_idsIncreasing.
Qed.

(** What a join appends is nothing, or one member with the fresh id. *)
Lemma join_appended raw now s m :
  In m (appended (queueList s) (queueList (join toUpperCase raw now s))) ->
  queueList (join toUpperCase raw now s) = queueList s ++ [m] /\
  id m = Math_max (map id (queueList s)) 0 + 1.
Proof.
  destruct (join_queueList toUpperCase raw now s) as [-> | (n & -> & Hn)].
  - rewrite appended_same. intros [].
  - rewrite appended_snoc. intros [<- | []]. auto.
Qed.

End Runs.

(** C10. In every state reached from the first render by joins and leaves,
    the members present have pairwise different ids; and a member that a
    join appends to such a state has an id above the id of every member
    present. *)
Theorem reachable_ids_distinct (toUpperCase : jsstring -> jsstring)
    (now0 : Z) (ops : list Op) :
  let s := run toUpperCase ops (initialState now0) in
  NoDup (map id (queueList s)) /\
  forall raw now m,
    In m (appended (queueList s) (queueList (join toUpperCase raw now s))) ->
    forall m', In m' (queueList s) -> id m' < id m.
Proof.
  intros s. split.
  - apply idsIncreasing_NoDup, run_idsIncreasing, idsIncreasing_initial.
  - intros raw now m Hm m' Hm'.
    destruct (join_appended toUpperCase raw now s m Hm) as [_ ->].
    now apply fresh_id_above.
Qed.

(** C5, as the component has it. There is no id counter: a join gives the
    new member the id [Math.max(ids present, 0) + 1].  So along every run
    from the first render the ids present increase strictly in queue order,
    and the id of a newly joined member is positive, above the id of every
    member present when it joins, and one more than the greatest of them.
    Ids of members that have left are not kept anywhere. *)
Theorem ids_fresh_among_present (toUpperCase : jsstring -> jsstring)
    (now0 : Z) (ops : list Op) (raw : jsstring) (now : Z) (m : QueueMember) :
  let s := run toUpperCase ops (initialState now0) in
  In m (appended (queueList s) (queueList (join toUpperCase raw now s))) ->
  StronglySorted Z.lt (map id (queueList s)) /\
  StronglySorted Z.lt (map id (queueList (join toUpperCase raw now s))) /\
  id m = Math_max (map id (queueList s)) 0 + 1 /\
  0 < id m /\
  (forall m', In m' (queueList s) -> id m' < id m) /\
  ~ In (id m) (map id (queueList s)).
Proof.
  intros s Hm.
  assert (I : idsIncreasing (queueList s))
    by apply run_idsIncreasing, idsIncreasing_initial.
  destruct (join_appended toUpperCase raw now s m Hm) as [Q E].
  assert (A : forall m', In m' (queueList s) -> id m' < id m).
  { intros m' Hm'. rewrite E. now apply fresh_id_above. }
  repeat split; auto.
  - rewrite Q. now apply idsIncreasing_snoc.
  - pose proof (Math_max_lower (map id (queueList s)) 0). lia.
  - intros Hin. apply in_map_iff in Hin as (m' & Heq & Hm').
    specialize (A m' Hm'). lia.
Qed.

(** ** The name parse *)

Lemma splitOn_nonempty p s : splitOn p s <> [].
Proof.
  destruct s as [|c r]; simpl; [discriminate|].
  destruct (p c); [discriminate|]. destruct (splitOn p r); discriminate.
Qed.

Lemma splitOn_no_separator p s :
  Forall (fun c => p c = false) s -> splitOn p s = [s].
Proof.
  induction 1 as [|c r Hc _ IH]; simpl; [reflexivity|]. now rewrite Hc, IH.
Qed.

Lemma splitOn_only_separators p s :
  Forall (fun c => p c = true) s -> Forall (fun t => t = []) (splitOn p s).
Proof.
  induction 1 as [|c r Hc _ IH]; simpl; [auto|]. rewrite Hc. auto.
Qed.

(** Splitting around a separator in the middle. *)
Lemma splitOn_app p a c b :
  p c = true -> splitOn p (a ++ c :: b) = splitOn p a ++ splitOn p b.
Proof.
  intros Hc. induction a as [|x a IH]; simpl.
  - now rewrite Hc.
  - destruct (p x); [now rewrite IH|]. rewrite IH.
    pose proof (splitOn_nonempty p a). destruct (splitOn p a); [congruence|].
    reflexivity.
Qed.

Lemma splitOn_ext p q s :
  (forall c, In c s -> p c = q c) -> splitOn p s = splitOn q s.
Proof.
  induction s as [|c r IH]; simpl; intros H; [reflexivity|].
  rewrite <- (H c (or_introl eq_refl)), IH by auto. reflexivity.
Qed.

Lemma splitOn_head p c r :
  p c = false -> exists t ts, splitOn p (c :: r) = (c :: t) :: ts.
Proof.
  intros Hc. simpl. rewrite Hc. pose proof (splitOn_nonempty p r).
  destruct (splitOn p r) as [|t ts]; [congruence|]. eauto.
Qed.

(** A list without a [p]-element, or cut at its last [p]-element. *)
Lemma cut_at_last {A} (p : A -> bool) l :
  Forall (fun x => p x = false) l \/
  exists a c b, l = a ++ c :: b /\ p c = true /\ Forall (fun x => p x = false) b.
Proof.
  induction l as [|x l [IH | (a & c & b & -> & Hc & Hb)]].
  - left. constructor.
  - destruct (p x) eqn:Px.
    + right. exists [], x, l. auto.
    + left. constructor; auto.
  - right. exists (x :: a), c, b. auto.
Qed.

Lemma eqb_SPACE_false l :
  ~ In SPACE l <-> Forall (fun c => N.eqb SPACE c = false) l.
Proof.
  rewrite Forall_forall. split; intros H.
  - intros c Hc. apply N.eqb_neq. intros <-. auto.
  - intros Hin. specialize (H _ Hin). now rewrite N.eqb_refl in H.
Qed.

(** The raw input is its trimmed value between two runs of whitespace. *)
Lemma trim_decompose s :
  exists l r, s = l ++ trim s ++ r /\
    Forall (fun c => isWhiteSpace c = true) l /\
    Forall (fun c => isWhiteSpace c = true) r.
Proof.
  unfold trim, trimEnd, trimStart.
  destruct (dropWhile_suffix isWhiteSpace s) as (l & El & Hl).
  destruct (dropWhile_suffix isWhiteSpace (rev (dropWhile isWhiteSpace s)))
    as (r & Er & Hr).
  exists l, (rev r). split; [|split; [exact Hl | now apply Forall_rev]].
  rewrite <- rev_app_distr, <- Er, rev_involutive. exact El.
Qed.

Lemma filter_nonEmpty_nil l :
  Forall (fun t => t = []) l -> filter nonEmpty l = [].
Proof. induction 1 as [|t l -> _ IH]; simpl; auto. Qed.

(** Whitespace around a string adds no token. *)
Lemma tokens_trim s : tokens s = tokens (trim s).
Proof.
  destruct (trim_decompose s) as (l & r & E & Hl & Hr).
  unfold tokens. rewrite E at 1. clear E.
  induction Hl as [|c l Hc _ IH]; simpl.
  - destruct Hr as [|c r Hc Hr]; [now rewrite app_nil_r|].
    rewrite splitOn_app by exact Hc. rewrite filter_app.
    rewrite (filter_nonEmpty_nil (splitOn isWhiteSpace r)).
    + now rewrite app_nil_r.
    + now apply splitOn_only_separators.
  - rewrite Hc. simpl. exact IH.
Qed.

Lemma nth_last_snoc {A} (l : list A) x d :
  nth (length (l ++ [x]) - 1) (l ++ [x]) d = x.
Proof.
  rewrite length_app. simpl. replace (length l + 1 - 1)%nat with (length l) by lia.
  now rewrite app_nth2, Nat.sub_diag by lia.
Qed.

Lemma isWhiteSpace_SPACE c : N.eqb SPACE c = true -> isWhiteSpace c = true.
Proof. intros H. apply N.eqb_eq in H. now subst c. Qed.

(** The pieces of a non-empty trimmed string: the string itself when it has
    no space; otherwise a non-empty first piece, a non-empty last piece (what
    follows the last space) and any pieces in between. *)
Lemma split_space_trimmed s c r :
  trim s = c :: r ->
  (~ In SPACE (trim s) /\ split_space (trim s) = [trim s]) \/
  (exists first mid lst a,
     split_space (trim s) = (first :: mid) ++ [lst] /\
     first <> [] /\ lst <> [] /\
     trim s = a ++ SPACE :: lst /\ ~ In SPACE lst).
Proof.
  intros T. destruct (trim_ends s c r T) as [Hc Hl]. rewrite T.
  unfold split_space.
  destruct (cut_at_last (N.eqb SPACE) (c :: r))
    as [F | (a & sp & b & E & Hsp & Hb)].
  - left. split; [now apply eqb_SPACE_false | now apply splitOn_no_separator].
  - right. rewrite E, (splitOn_app _ _ _ _ Hsp), (splitOn_no_separator _ b Hb).
    assert (sp = SPACE) by (symmetry; now apply N.eqb_eq). subst sp.
    destruct a as [|x a].
    { simpl in E. injection E as -> _. cbv in Hc. discriminate Hc. }
    simpl in E. injection E as <- E.
    destruct (splitOn_head (N.eqb SPACE) c a) as (t & ts & ->).
    { destruct (N.eqb SPACE c) eqn:K; [|reflexivity].
      apply isWhiteSpace_SPACE in K. congruence. }
    exists (c :: t), ts, b, (c :: a). repeat split; try discriminate.
    + intros ->. rewrite E in Hl.
      change (c :: a ++ [SPACE]) with ((c :: a) ++ [SPACE]) in Hl.
      rewrite last_last in Hl. cbv in Hl. discriminate Hl.
    + now apply eqb_SPACE_false.
Qed.

(** C3, as the component has it. For an input whose trimmed value is not
    empty the parse cuts the trimmed value at the space character U+0020
    alone: the first name is what stands before the first space, the last
    initial is the upper-cased first code unit of what stands after the
    last space, and a value without a space is the first name whole with an
    empty last initial.  When the trimmed value has no whitespace other
    than spaces, this is the split on whitespace of the specification.
    [Madonna] parses to the key ([Madonna], empty) and joins the initial
    list under it. *)
Theorem parseName_cuts_at_spaces (toUpperCase : jsstring -> jsstring)
    (raw : jsstring) :
  trim raw <> [] ->
  (forall a b, trim raw = a ++ SPACE :: b -> ~ In SPACE a ->
     fst (parseName toUpperCase raw) = a) /\
  (forall a c l, trim raw = a ++ SPACE :: c :: l -> ~ In SPACE (c :: l) ->
     snd (parseName toUpperCase raw) = toUpperCase [c]) /\
  (~ In SPACE (trim raw) -> parseName toUpperCase raw = (trim raw, [])) /\
  ((forall c, In c (trim raw) -> isWhiteSpace c = true -> c = SPACE) ->
     parseName toUpperCase raw = parseName_spec toUpperCase raw) /\
  parseName toUpperCase (js "Madonna") = (js "Madonna", []) /\
  (forall now0 now,
     let s' := join toUpperCase (js "Madonna") now (initialState now0) in
     userFirstName s' = js "Madonna" /\ userLastInitial s' = [] /\
     surfacedError s' = None /\
     map identityKey (queueList s') =
       map identityKey (initialQueue now0) ++ [(js "Madonna", [])]).
Proof.
  intros Hne. unfold parseName, split_space.
  assert (SP : N.eqb SPACE SPACE = true) by reflexivity.
  split; [|split; [|split; [|split; [|split]]]].
  - intros a b E Ha. apply eqb_SPACE_false in Ha.
    rewrite E, (splitOn_app _ _ _ _ SP), (splitOn_no_separator _ a Ha).
    reflexivity.
  - intros a c l E Hl. apply eqb_SPACE_false in Hl.
    rewrite E, (splitOn_app _ _ _ _ SP), (splitOn_no_separator _ _ Hl).
    cbn [snd]. rewrite nth_last_snoc, length_app.
    pose proof (splitOn_nonempty (N.eqb SPACE) a).
    destruct (splitOn (N.eqb SPACE) a) as [|t ts]; [congruence|].
    simpl length. replace (S (length ts) + 1)%nat with (S (S (length ts))) by lia.
    reflexivity.
  - intros H. apply eqb_SPACE_false in H.
    now rewrite (splitOn_no_separator _ _ H).
  - intros W. unfold parseName_spec. rewrite tokens_trim. unfold tokens.
    rewrite (splitOn_ext isWhiteSpace (N.eqb SPACE) (trim raw)).
    2:{ intros c Hc. destruct (isWhiteSpace c) eqn:K.
        - rewrite (W c Hc K). reflexivity.
        - destruct (N.eqb SPACE c) eqn:K'; [|reflexivity].
          apply isWhiteSpace_SPACE in K'. congruence. }
    destruct (trim raw) as [|c r] eqn:T; [congruence|].
    destruct (split_space_trimmed raw c r T)
      as [[_ E] | (first & mid & lst & a & E & Hf & Hl & _)];
      rewrite T in E; unfold split_space in E; rewrite E.
    + reflexivity.
    + rewrite nth_last_snoc. rewrite filter_app. simpl filter.
      destruct first as [|f0 first]; [congruence|].
      destruct lst as [|l0 lst]; [congruence|].
      change (nonEmpty (f0 :: first)) with true.
      change (nonEmpty (l0 :: lst)) with true. cbn iota.
      rewrite last_last, !length_app. simpl.
      replace (length mid + 1)%nat with (S (length mid)) by lia.
      replace (length (filter nonEmpty mid) + 1)%nat
        with (S (length (filter nonEmpty mid))) by lia.
      reflexivity.
  - reflexivity.
  - intros now0 now.
    rewrite join_success; [repeat split | discriminate | reflexivity].
Qed.

(** * The claims on concrete inputs *)

(** The initial list carries none of the keys used below. *)
Lemma initialQueue_absent now0 fn li :
  existsb (sameKey fn li) (initialQueue now0) = false ->
  forall m, In m (initialQueue now0) ->
    ~ (firstName m = fn /\ lastInitial m = li).
Proof. intros H. now apply absent_existsb. Qed.

(** Joining [Alice Brown] on the initial list: id 4, position 4, [20m]. *)
Lemma join_appends_and_ranks_witness :
  map id (queueList
    (join upperBasicLatin (js "Alice Brown") 1000 (initialState 0)))
    = [1; 2; 3; 4] /\
  userPosition (join upperBasicLatin (js "Alice Brown") 1000 (initialState 0))
    = Some 4 /\
  calculateEstimatedWaitTime 4 = js "20m".
Proof.
  destruct (join_appends_and_ranks upperBasicLatin (js "Alice Brown") 1000
              (initialState 0)) as (Q & _ & _ & _ & _ & P).
  - discriminate.
  - apply initialQueue_absent. reflexivity.
  - intros m [<- | [<- | [<- | []]]]; reflexivity.
  - split; [rewrite Q; reflexivity | split; [exact P | reflexivity]].
Defined.

Lemma join_duplicate_rejected_witness :
  surfacedError (join upperBasicLatin (js "John Doe") 1000 (initialState 0))
    = Some DuplicateError /\
  queueList (join upperBasicLatin (js "John Doe") 1000 (initialState 0))
    = initialQueue 0.
Proof.
  destruct (join_duplicate_rejected upperBasicLatin) as [G S].
  destruct (S eq_refl 0 1000) as (_ & A & B).
  destruct (G (js "John Doe") 1000 (initialState 0)) as (A' & _ & B').
  - discriminate.
  - eexists. split; [left; reflexivity | split; reflexivity].
  - split; [exact A | exact B'].
Defined.

(** Three spaces and a tab. *)
Lemma join_blank_rejected_witness :
  surfacedError (join upperBasicLatin (js "   " ++ [9%N]) 1000 (initialState 0))
    = Some ValidationError /\
  queueList (join upperBasicLatin (js "   " ++ [9%N]) 1000 (initialState 0))
    = initialQueue 0.
Proof.
  destruct (join_blank_rejected upperBasicLatin (js "   " ++ [9%N]) 1000
              (initialState 0)) as (_ & A & B).
  - repeat constructor.
  - split; [exact A | exact B].
Defined.

Lemma leave_absent_raises_nothing_witness :
  surfacedError (leave (js "Zed") [] (initialState 0)) = None /\
  isInQueue (leave (js "Zed") [] (initialState 0)) = false.
Proof.
  destruct (leave_absent_raises_nothing (js "Zed") [] (initialState 0))
    as (_ & A & _ & B & _).
  - apply initialQueue_absent. reflexivity.
  - split; [exact A | exact B].
Defined.

Lemma leave_absent_keeps_list_witness :
  queueList (leave (js "Zed") [] (initialState 0)) = initialQueue 0.
Proof.
  apply (leave_absent_keeps_list (js "Zed") [] (initialState 0)).
  apply initialQueue_absent. reflexivity.
Defined.

Lemma uniqueKeys_initial now0 : uniqueKeys (initialQueue now0).
Proof.
  unfold uniqueKeys. simpl.
  repeat (constructor; [simpl; intuition discriminate|]). constructor.
Qed.

Lemma leave_removes_exactly_one_witness :
  length (queueList (leave (js "Jane") (js "S") (initialState 0))) = 2%nat /\
  position (js "Jane") (js "S")
    (queueList (leave (js "Jane") (js "S") (initialState 0))) = None.
Proof.
  destruct (leave_removes_exactly_one (js "Jane") (js "S") (initialState 0))
    as (pre & m & post & _ & _ & _ & _ & L & P).
  - apply uniqueKeys_initial.
  - eexists. split; [right; left; reflexivity | split; reflexivity].
  - split; [reflexivity | exact P].
Defined.

Lemma calculateEstimatedWaitTime_format_witness :
  0 < 13 /\ calculateEstimatedWaitTime 13 = js "1h 5m".
Proof.
  split; [lia|].
  apply (calculateEstimatedWaitTime_format 13); [lia | discriminate].
Defined.

Lemma reachable_ids_distinct_witness :
  NoDup (map id (queueList
    (run upperBasicLatin
       [Join (js "Alice Brown") 1000; Leave (js "Jane") (js "S");
        Join (js "Bob C") 2000] (initialState 0)))).
Proof.
  apply (reachable_ids_distinct upperBasicLatin 0
           [Join (js "Alice Brown") 1000; Leave (js "Jane") (js "S");
            Join (js "Bob C") 2000]).
Defined.

Lemma ids_fresh_among_present_witness :
  StronglySorted Z.lt
    (map id (queueList
       (join upperBasicLatin (js "Alice Brown") 1000 (initialState 0)))) /\
  4 = Math_max (map id (initialQueue 0)) 0 + 1 /\ 0 < 4.
Proof.
  destruct (ids_fresh_among_present upperBasicLatin 0 [] (js "Alice Brown") 1000
              {| id := 4; firstName := js "Alice"; lastInitial := js "B";
                 joinedTime := 1000 |}) as (_ & S & E & P & _).
  - left. reflexivity.
  - split; [exact S | split; [exact E | exact P]].
Defined.

Lemma parseName_cuts_at_spaces_witness :
  parseName upperBasicLatin (js "  mary ann  smith ") = (js "mary", js "S") /\
  parseName_spec upperBasicLatin (js "  mary ann  smith ") = (js "mary", js "S").
Proof.
  destruct (parseName_cuts_at_spaces upperBasicLatin (js "  mary ann  smith "))
    as (F & L & _ & W & _).
  - discriminate.
  - assert (E : parseName upperBasicLatin (js "  mary ann  smith ")
                = (js "mary", js "S")).
    { apply injective_projections.
      + refine (F (js "mary") (js "ann  smith") eq_refl _).
        simpl. unfold SPACE. intuition discriminate.
      + refine (L (js "mary ann ") 115%N (js "mith") eq_refl _).
        simpl. unfold SPACE. intuition discriminate. }
    split; [exact E|]. rewrite <- W; [exact E|].
    intros c Hc Wc. simpl in Hc.
    repeat (destruct Hc as [<- | Hc]; [first [reflexivity | discriminate Wc]|]).
    destruct Hc.
Defined.

(** ** Where the code departs from the specification *)

(** C3. A tab inside the name is whitespace but not a separator for the
    component: [John<TAB>Doe] is one name part, so the first name is the
    whole input and the last initial is empty, where a split on whitespace
    gives ([John], [D]). *)
Lemma parseName_tab_counterexample :
  trim (js "John" ++ [9%N] ++ js "Doe") <> [] /\
  parseName upperBasicLatin (js "John" ++ [9%N] ++ js "Doe")
    = (js "John" ++ [9%N] ++ js "Doe", []) /\
  parseName_spec upperBasicLatin (js "John" ++ [9%N] ++ js "Doe")
    = (js "John", js "D") /\
  parseName upperBasicLatin (js "John" ++ [9%N] ++ js "Doe")
    <> parseName_spec upperBasicLatin (js "John" ++ [9%N] ++ js "Doe").
Proof. repeat split; discriminate. Qed.

(** C5. [Alice Brown] joins and gets id 4, leaves, and [Bob C] joins and
    gets id 4 again: the ids of the members ever inserted are 1, 2, 3, 4, 4. *)
Lemma id_reused_counterexample :
  map id (history upperBasicLatin 0
            [Join (js "Alice Brown") 1000; Leave (js "Alice") (js "B");
             Join (js "Bob C") 2000]) = [1; 2; 3; 4; 4] /\
  map firstName (history upperBasicLatin 0
            [Join (js "Alice Brown") 1000; Leave (js "Alice") (js "B");
             Join (js "Bob C") 2000])
    = [js "John"; js "Jane"; js "Mike"; js "Alice"; js "Bob"] /\
  ~ NoDup (map id (history upperBasicLatin 0
            [Join (js "Alice Brown") 1000; Leave (js "Alice") (js "B");
             Join (js "Bob C") 2000])).
Proof.
  split; [reflexivity | split; [reflexivity|]].
  intros H. change (NoDup [1; 2; 3; 4; 4]) in H.
  repeat (apply NoDup_cons_iff in H as [? H]).
  simpl in *. tauto.
Qed.

(** C6. [Zed] is not in the initial list, and leaving as [Zed] shows no
    error at all. *)
Lemma leave_absent_counterexample :
  existsb (sameKey (js "Zed") []) (queueList (initialState 0)) = false /\
  surfacedError (leave (js "Zed") [] (initialState 0)) = None /\
  surfacedError (leave (js "Zed") [] (initialState 0)) <> Some NotFoundError.
Proof. repeat split; discriminate. Qed.

(** * Further properties of the component *)

(** ** Positions *)

Lemma position_some fn li q p :
  position fn li q = Some p ->
  exists pre m post,
    q = pre ++ m :: post /\ existsb (sameKey fn li) pre = false /\
    sameKey fn li m = true /\ p = Z.of_nat (length pre) + 1.
Proof.
  unfold position. destruct (find (sameKey fn li) q) as [m|] eqn:F;
    [|discriminate].
  intros H. injection H as <-.
  destruct (indexOf_find fn li q m F) as (pre & post & E & A & I).
  exists pre, m, post. apply find_some in F. rewrite I. tauto.
Qed.

Lemma position_none fn li q :
  position fn li q = None -> existsb (sameKey fn li) q = false.
Proof.
  unfold position. destruct (find (sameKey fn li) q) eqn:F; [discriminate|].
  intros _. apply existsb_false. intros m Hm.
  exact (find_none _ _ F m Hm).
Qed.

(** X1. [userPosition] is the 1-based index of the first member that
    carries the key: it is [null] exactly when no member carries it, and
    otherwise lies between 1 and the length of the list, points at a member
    with the key, and no member in front of that one carries the key. *)
Theorem position_first_match (fn li : jsstring) (q : list QueueMember) :
  (position fn li q = None <->
   forall m, In m q -> ~ (firstName m = fn /\ lastInitial m = li)) /\
  (forall p, position fn li q = Some p ->
     1 <= p <= Z.of_nat (length q) /\
     exists m, nth_error q (Z.to_nat (p - 1)) = Some m /\
       firstName m = fn /\ lastInitial m = li /\
       forall i m', (i < Z.to_nat (p - 1))%nat -> nth_error q i = Some m' ->
         ~ (firstName m' = fn /\ lastInitial m' = li)).
Proof.
  split.
  - rewrite absent_existsb. split; [apply position_none | apply position_absent].
  - intros p H.
    destruct (position_some fn li q p H) as (pre & m & post & -> & A & K & ->).
    replace (Z.to_nat (Z.of_nat (length pre) + 1 - 1)) with (length pre) by lia.
    split; [rewrite length_app; simpl; lia|].
    exists m. apply sameKey_true in K as [Kf Kl].
    split; [now rewrite nth_error_app2, Nat.sub_diag by lia|].
    split; [exact Kf | split; [exact Kl|]].
    intros i m' Hi Hm'. rewrite nth_error_app1 in Hm' by exact Hi.
    apply nth_error_In in Hm'.
    exact (proj2 (absent_existsb fn li pre) A m' Hm').
Qed.

(** ** The outcomes of a join *)

Lemma trim_empty_iff s :
  trim s = [] <-> Forall (fun c => isWhiteSpace c = true) s.
Proof.
  split; [|apply trim_whitespace].
  intros H. destruct (trim_decompose s) as (l & r & E & Hl & Hr).
  rewrite H in E. rewrite E. apply Forall_app. auto.
Qed.

Lemma present_existsb fn li q :
  (exists m, In m q /\ firstName m = fn /\ lastInitial m = li) <->
  existsb (sameKey fn li) q = true.
Proof.
  rewrite existsb_exists. split; intros (m & Hm & K); exists m;
    (split; [exact Hm | now apply sameKey_true]).
Qed.

(** X2. A join has exactly three outcomes, read off the input and the list:
    the validation error exactly for a blank input, the duplicate error
    exactly for a non-blank input whose parsed key is present, and no error
    exactly for a non-blank input whose parsed key is absent; the list
    grows, by one member, in the last case only. *)
Theorem join_outcomes (toUpperCase : jsstring -> jsstring)
    (raw : jsstring) (now : Z) (s : State) :
  (surfacedError (join toUpperCase raw now s) = Some ValidationError <->
     Forall (fun c => isWhiteSpace c = true) raw) /\
  (surfacedError (join toUpperCase raw now s) = Some DuplicateError <->
     trim raw <> [] /\
     exists m, In m (queueList s) /\
       firstName m = fst (parseName toUpperCase raw) /\
       lastInitial m = snd (parseName toUpperCase raw)) /\
  (surfacedError (join toUpperCase raw now s) = None <->
     trim raw <> [] /\
     forall m, In m (queueList s) ->
       ~ (firstName m = fst (parseName toUpperCase raw) /\
          lastInitial m = snd (parseName toUpperCase raw))) /\
  length (queueList (join toUpperCase raw now s)) =
    match surfacedError (join toUpperCase raw now s) with
    | None => S (length (queueList s))
    | Some _ => length (queueList s)
    end.
Proof.
  rewrite <- trim_empty_iff, present_existsb, absent_existsb.
  destruct (trim raw) as [|c r] eqn:T.
  - rewrite (join_empty toUpperCase raw now s T).
    repeat split; try discriminate; try tauto; intros [H _]; congruence.
  - assert (Hne : trim raw <> []) by congruence. rewrite <- T.
    destruct (existsb (sameKey (fst (parseName toUpperCase raw))
                (snd (parseName toUpperCase raw))) (queueList s)) eqn:E.
    + rewrite (join_duplicate toUpperCase raw now s Hne E).
      repeat split; try discriminate; try tauto; try congruence;
        intros [_ H]; congruence.
    + rewrite (join_success toUpperCase raw now s Hne E).
      repeat split; try discriminate; try tauto; try congruence.
      * intros [_ H]; congruence.
      * simpl. rewrite length_app. simpl. lia.
Qed.

(** X3. Joining a name a second time is refused as a duplicate, whatever the
    first attempt did, and the second attempt leaves the list as the first
    one left it. *)
Theorem join_again_rejected (toUpperCase : jsstring -> jsstring)
    (raw : jsstring) (now now' : Z) (s : State) :
  trim raw <> [] ->
  surfacedError (join toUpperCase raw now' (join toUpperCase raw now s))
    = Some DuplicateError /\
  queueList (join toUpperCase raw now' (join toUpperCase raw now s))
    = queueList (join toUpperCase raw now s).
Proof.
  intros Hne.
  assert (P : existsb (sameKey (fst (parseName toUpperCase raw))
                (snd (parseName toUpperCase raw)))
                (queueList (join toUpperCase raw now s)) = true).
  { destruct (existsb (sameKey (fst (parseName toUpperCase raw))
                (snd (parseName toUpperCase raw))) (queueList s)) eqn:E.
    - now rewrite (join_duplicate toUpperCase raw now s Hne E).
    - rewrite (join_success toUpperCase raw now s Hne E). simpl.
      rewrite existsb_app. simpl.
      replace (sameKey _ _ _) with true; [apply orb_true_r|].
      symmetry. now apply sameKey_true. }
  rewrite (join_duplicate toUpperCase raw now' _ Hne P). split; reflexivity.
Qed.

(** X4. A join never moves anyone: whatever its outcome, every key that had
    a position keeps that position. *)
Theorem join_keeps_positions (toUpperCase : jsstring -> jsstring)
    (raw : jsstring) (now : Z) (s : State) (fn li : jsstring) (p : Z) :
  position fn li (queueList s) = Some p ->
  position fn li (queueList (join toUpperCase raw now s)) = Some p.
Proof.
  intros H. destruct (join_queueList toUpperCase raw now s) as [-> | (m & -> & _)];
    [exact H|].
  destruct (position_some fn li _ p H) as (pre & x & post & -> & A & K & ->).
  rewrite <- app_assoc. simpl. now apply position_split.
Qed.

(** ** Leaving *)

Lemma filter_twice {A} (p : A -> bool) l : filter p (filter p l) = filter p l.
Proof. apply filter_all. intros x Hx. apply filter_In in Hx. tauto. Qed.

Lemma sameKey_identityKey fn li m :
  sameKey fn li m = true <-> identityKey m = (fn, li).
Proof.
  rewrite sameKey_true. unfold identityKey. split.
  - intros [-> ->]. reflexivity.
  - intros H. injection H. auto.
Qed.

(** With pairwise different keys, the filter of [leave] drops the one member
    with the key and nothing else. *)
Lemma filter_unique_key fn li pre m post :
  uniqueKeys (pre ++ m :: post) -> sameKey fn li m = true ->
  existsb (sameKey fn li) (pre ++ post) = false /\
  filter (fun member => negb (sameKey fn li member)) (pre ++ m :: post)
    = pre ++ post.
Proof.
  intros U K. unfold uniqueKeys in U. rewrite map_app in U. simpl in U.
  apply NoDup_remove_2 in U. rewrite <- map_app in U.
  assert (A : forall x, In x (pre ++ post) -> sameKey fn li x = false).
  { intros x Hx. destruct (sameKey fn li x) eqn:Kx; [|reflexivity].
    exfalso. apply U. apply in_map_iff. exists x. split; [|exact Hx].
    apply sameKey_identityKey in K, Kx. congruence. }
  split; [now apply existsb_false|].
  rewrite filter_app. simpl. rewrite K. simpl.
  f_equal; apply filter_all; intros x Hx; rewrite A; auto; apply in_or_app; auto.
Qed.

(** X5. After a leave the key is gone, whether or not it was there and
    however many members carried it: it has no position, exactly the
    members with another key remain, and leaving a second time with the
    same key changes nothing at all. *)
Theorem leave_forgets_key (fn li : jsstring) (s : State) :
  position fn li (queueList (leave fn li s)) = None /\
  (forall m, In m (queueList (leave fn li s)) <->
     In m (queueList s) /\ ~ (firstName m = fn /\ lastInitial m = li)) /\
  leave fn li (leave fn li s) = leave fn li s.
Proof.
  assert (M : forall m, In m (queueList (leave fn li s)) <->
     In m (queueList s) /\ ~ (firstName m = fn /\ lastInitial m = li)).
  { intros m. rewrite leave_queueList, filter_In, negb_true_iff.
    rewrite <- sameKey_true. destruct (sameKey fn li m); intuition congruence. }
  split; [|split; [exact M|]].
  - apply position_absent, absent_existsb. intros m Hm. now apply M in Hm.
  - unfold leave, handleRemoveFromQueue. simpl. now rewrite filter_twice.
Qed.

(** X6. Joining and then pressing Leave gives the list back: after a join
    that succeeds (non-blank name, key not present), the Leave handler
    removes the member just appended and nothing else, and the session is
    out of the queue with no position. *)
Theorem join_then_leave_restores (toUpperCase : jsstring -> jsstring)
    (raw : jsstring) (now : Z) (s : State) :
  trim raw <> [] ->
  (forall m, In m (queueList s) ->
     ~ (firstName m = fst (parseName toUpperCase raw) /\
        lastInitial m = snd (parseName toUpperCase raw))) ->
  queueList (handleRemoveFromQueue (join toUpperCase raw now s)) = queueList s /\
  isInQueue (handleRemoveFromQueue (join toUpperCase raw now s)) = false /\
  position (fst (parseName toUpperCase raw)) (snd (parseName toUpperCase raw))
    (queueList (handleRemoveFromQueue (join toUpperCase raw now s))) = None.
Proof.
  intros Hne Habs. apply absent_existsb in Habs.
  rewrite (join_success toUpperCase raw now s Hne Habs).
  unfold handleRemoveFromQueue.
  cbn [queueList userFirstName userLastInitial isInQueue].
  assert (Q : filter (fun member => negb (sameKey (fst (parseName toUpperCase raw))
                 (snd (parseName toUpperCase raw)) member))
               (queueList s ++
                [{| id := Math_max (map id (queueList s)) 0 + 1;
                    firstName := fst (parseName toUpperCase raw);
                    lastInitial := snd (parseName toUpperCase raw);
                    joinedTime := now |}]) = queueList s).
  { rewrite filter_app. cbn [filter].
    rewrite (proj2 (sameKey_true _ _ _)) by (split; reflexivity).
    cbn [negb]. rewrite app_nil_r. apply filter_all. intros m Hm.
    rewrite existsb_false in Habs. cbv beta. now rewrite (Habs m Hm). }
  rewrite Q. repeat split. now apply position_absent.
Qed.

(** X7. When the keys present are pairwise different and a member leaves,
    every other member keeps its position if it stood in front of the one
    leaving and moves up by exactly one if it stood behind. *)
Theorem leave_moves_up (fn li fn' li' : jsstring) (s : State) (p p' : Z) :
  uniqueKeys (queueList s) ->
  position fn li (queueList s) = Some p ->
  position fn' li' (queueList s) = Some p' ->
  (fn', li') <> (fn, li) ->
  position fn' li' (queueList (leave fn li s))
    = Some (if p <? p' then p' - 1 else p').
Proof.
  intros U H H' Hne. rewrite leave_queueList.
  destruct (position_some _ _ _ _ H) as (pre & m & post & E & A & K & ->).
  destruct (position_some _ _ _ _ H') as (pre' & m' & post' & E' & A' & K' & ->).
  rewrite E in U. destruct (filter_unique_key fn li pre m post U K) as [_ F].
  rewrite E, F. rewrite E in E'. clear E F U H H'.
  assert (Km : sameKey fn' li' m = false).
  { destruct (sameKey fn' li' m) eqn:X; [|reflexivity].
    apply sameKey_identityKey in X, K. congruence. }
  apply app_eq_app in E' as [l [[E1 E2] | [E1 E2]]].
  - (* the leaving member stands at or behind the other *)
    destruct l as [|x l]; simpl in E2.
    + injection E2 as -> _. congruence.
    + injection E2 as <- ->. subst pre. rewrite <- app_assoc. simpl.
      rewrite position_split by assumption.
      rewrite length_app. simpl length.
      replace (_ <? _) with false by (symmetry; apply Z.ltb_ge; lia).
      reflexivity.
  - (* the leaving member stands in front of the other *)
    destruct l as [|x l]; simpl in E2.
    + injection E2 as -> _. congruence.
    + injection E2 as <- ->. subst pre'. rewrite app_assoc.
      rewrite existsb_app in A'. simpl in A'.
      apply orb_false_iff in A' as [Ap A']. apply orb_false_iff in A' as [_ Al].
      rewrite position_split; [|rewrite existsb_app, Ap, Al; reflexivity|exact K'].
      rewrite !length_app. simpl length.
      replace (_ <? _) with true by (symmetry; apply Z.ltb_lt; lia).
      f_equal. lia.
Qed.

(** ** What the queue keeps *)

Lemma splitOn_pieces p s :
  Forall (Forall (fun c => p c = false)) (splitOn p s).
Proof.
  induction s as [|c r IH]; simpl.
  - repeat constructor.
  - destruct (p c) eqn:Pc; [constructor; auto|].
    destruct (splitOn p r) as [|t ts]; [repeat constructor; auto|].
    apply Forall_cons_iff in IH as [Ht Hts]. constructor; auto.
Qed.

Lemma parseName_firstName_proper_aux (toUpperCase : jsstring -> jsstring)
    (raw : jsstring) (c : N) (r : jsstring) :
  trim raw = c :: r ->
  exists t, fst (parseName toUpperCase raw) = c :: t /\ ~ In SPACE (c :: t).
Proof.
  intros T. destruct (trim_ends raw c r T) as [Hc _].
  assert (Sc : N.eqb SPACE c = false).
  { destruct (N.eqb SPACE c) eqn:K; [|reflexivity].
    apply isWhiteSpace_SPACE in K. congruence. }
  unfold parseName, split_space. rewrite T.
  pose proof (splitOn_pieces (N.eqb SPACE) (c :: r)) as P.
  destruct (splitOn_head (N.eqb SPACE) c r Sc) as (t & ts & E).
  rewrite E in *. exists t. cbn [fst nth].
  apply Forall_cons_iff in P as [P _].
  split; [reflexivity | now apply eqb_SPACE_false].
Qed.

(** X8. The first name of a non-blank input starts with the first unit of
    the trimmed input, which is not whitespace, and contains no space: it
    is never the empty string, so a parsed key never equals the key
    ([''], ['']) of a session that is not in the queue. *)
Theorem parseName_firstName_proper (toUpperCase : jsstring -> jsstring)
    (raw : jsstring) (c : N) (r : jsstring) :
  trim raw = c :: r ->
  exists t, fst (parseName toUpperCase raw) = c :: t /\
    isWhiteSpace c = false /\ ~ In SPACE (c :: t) /\
    parseName toUpperCase raw <> ([], []).
Proof.
  intros T. destruct (trim_ends raw c r T) as [Hc _].
  destruct (parseName_firstName_proper_aux toUpperCase raw c r T)
    as (t & E & S).
  exists t. repeat split; try assumption.
  intros H. rewrite H in E. discriminate E.
Qed.

Lemma NoDup_map_filter {A B} (f : A -> B) (p : A -> bool) l :
  NoDup (map f l) -> NoDup (map f (filter p l)).
Proof.
  induction l as [|x l IH]; simpl; [auto|]. intros H.
  apply NoDup_cons_iff in H as [Hx Hl]. destruct (p x); [|auto].
  simpl. constructor; [|auto]. intros Hin. apply Hx.
  apply in_map_iff in Hin as (y & E & Hy). apply in_map_iff. exists y.
  apply filter_In in Hy. tauto.
Qed.

Lemma Forall_filter_keep {A} (P : A -> Prop) (p : A -> bool) l :
  Forall P l -> Forall P (filter p l).
Proof.
  rewrite !Forall_forall. intros H x Hx. apply filter_In in Hx. apply H. tauto.
Qed.

Lemma uniqueKeys_snoc q m :
  uniqueKeys q ->
  existsb (sameKey (firstName m) (lastInitial m)) q = false ->
  uniqueKeys (q ++ [m]).
Proof.
  unfold uniqueKeys. intros U A. rewrite map_app. simpl.
  apply NoDup_rev in U. rewrite <- (rev_involutive (map identityKey q ++ _)).
  apply NoDup_rev. rewrite rev_app_distr. simpl. constructor; [|exact U].
  rewrite <- in_rev. intros Hin. apply in_map_iff in Hin as (x & E & Hx).
  rewrite existsb_false in A. specialize (A x Hx).
  apply sameKey_identityKey in E. congruence.
Qed.

Lemma queueInvariant_initial now0 : queueInvariant (initialQueue now0).
Proof.
  split; [apply idsIncreasing_initial|]. split.
  - unfold uniqueKeys. simpl.
    repeat (constructor; [simpl; intuition discriminate|]). constructor.
  - repeat constructor; simpl; try discriminate;
      unfold SPACE; intuition discriminate.
Qed.

Lemma queueInvariant_filter p q :
  queueInvariant q -> queueInvariant (filter p q).
Proof.
  intros (I & U & F). split; [now apply idsIncreasing_filter|].
  split; [now apply NoDup_map_filter | now apply Forall_filter_keep].
Qed.

Section Preservation.

Variable toUpperCase : jsstring -> jsstring.

Lemma handleNameSubmit_queueInvariant now s :
  queueInvariant (queueList s) ->
  queueInvariant (queueList (handleNameSubmit toUpperCase now s)).
Proof.
  intros (I & U & F). rewrite <- join_userName.
  destruct (trim (userName s)) as [|c r] eqn:T.
  { rewrite join_empty by exact T. repeat split; assumption. }
  assert (Hne : trim (userName s) <> []) by congruence.
  destruct (existsb (sameKey (fst (parseName toUpperCase (userName s)))
              (snd (parseName toUpperCase (userName s)))) (queueList s)) eqn:E.
  { rewrite join_duplicate by assumption. repeat split; assumption. }
  rewrite (join_success toUpperCase _ now s Hne E). cbn [queueList].
  split; [|split].
  - apply idsIncreasing_snoc; [exact I|]. intros x Hx. now apply fresh_id_above.
  - apply uniqueKeys_snoc; [exact U | exact E].
  - apply Forall_app. split; [exact F|]. constructor; [|constructor].
    destruct (parseName_firstName_proper_aux toUpperCase (userName s) c r T)
      as (t & Ef & Hs).
    unfold properFirstName. cbn [firstName]. rewrite Ef.
    split; [discriminate | exact Hs].
Qed.

End Preservation.

Section QueueRuns.

Variable toUpperCase : jsstring -> jsstring.

Lemma step_queueInvariant s op :
  queueInvariant (queueList s) ->
  queueInvariant (queueList (step toUpperCase s op)).
Proof.
  intros H. destruct op as [raw now | fn li]; cbn [step].
  - unfold join. now apply handleNameSubmit_queueInvariant.
  - rewrite leave_queueList. now apply queueInvariant_filter.
Qed.

Lemma run_queueInvariant ops s :
  queueInvariant (queueList s) ->
  queueInvariant (queueList (run toUpperCase ops s)).
Proof.
  revert s. induction ops as [|op ops IH]; intros s H; simpl; [exact H|].
  apply IH. now apply step_queueInvariant.
Qed.

End QueueRuns.

Lemma properFirstName_no_empty_key q :
  Forall properFirstName q -> existsb (sameKey [] []) q = false.
Proof.
  intros F. apply existsb_false. intros m Hm.
  rewrite Forall_forall in F. destruct (F m Hm) as [Hne _].
  destruct (sameKey [] [] m) eqn:K; [|reflexivity].
  apply sameKey_true in K as [K _]. congruence.
Qed.

(** X9. In every state reached from the first render by joins and leaves,
    no two members present carry the same (first name, last initial) pair,
    every first name is non-empty and free of spaces, and the cleared key
    ([''], ['']) of a session that has left has no position. *)
Theorem reachable_keys_unique (toUpperCase : jsstring -> jsstring)
    (now0 : Z) (ops : list Op) :
  uniqueKeys (queueList (run toUpperCase ops (initialState now0))) /\
  Forall properFirstName (queueList (run toUpperCase ops (initialState now0))) /\
  position [] [] (queueList (run toUpperCase ops (initialState now0))) = None.
Proof.
  destruct (run_queueInvariant toUpperCase ops (initialState now0)
              (queueInvariant_initial now0)) as (_ & U & F).
  repeat split; try assumption.
  now apply position_absent, properFirstName_no_empty_key.
Qed.

Lemma firstn_skipn_middle {A} (pre : list A) m post :
  firstn (length pre) (pre ++ m :: post) = pre /\
  skipn (S (length pre)) (pre ++ m :: post) = post.
Proof.
  split.
  - rewrite firstn_app, Nat.sub_diag, firstn_all. simpl. apply app_nil_r.
  - rewrite skipn_app, skipn_all2 by lia.
    replace (S (length pre) - length pre)%nat with 1%nat by lia. reflexivity.
Qed.

(** X10. In every state reached from the first render, leaving with a key
    that has position [p] takes out the [p]-th member and no other: the
    list after it is the first [p - 1] members followed by those behind
    the [p]-th. *)
Theorem reachable_leave_removes_pth (toUpperCase : jsstring -> jsstring)
    (now0 : Z) (ops : list Op) (fn li : jsstring) (p : Z) :
  position fn li (queueList (run toUpperCase ops (initialState now0))) = Some p ->
  queueList (leave fn li (run toUpperCase ops (initialState now0))) =
    firstn (Z.to_nat (p - 1))
      (queueList (run toUpperCase ops (initialState now0))) ++
    skipn (Z.to_nat p) (queueList (run toUpperCase ops (initialState now0))) /\
  S (length (queueList (leave fn li (run toUpperCase ops (initialState now0)))))
    = length (queueList (run toUpperCase ops (initialState now0))).
Proof.
  intros H.
  destruct (run_queueInvariant toUpperCase ops (initialState now0)
              (queueInvariant_initial now0)) as (_ & U & _).
  rewrite leave_queueList.
  destruct (position_some _ _ _ _ H) as (pre & m & post & E & _ & K & ->).
  rewrite E in *. destruct (filter_unique_key fn li pre m post U K) as [_ ->].
  replace (Z.to_nat (Z.of_nat (length pre) + 1 - 1)) with (length pre) by lia.
  replace (Z.to_nat (Z.of_nat (length pre) + 1)) with (S (length pre)) by lia.
  destruct (firstn_skipn_middle pre m post) as [-> ->].
  split; [reflexivity|]. rewrite !length_app. simpl. lia.
Qed.

(** ** What a session keeps *)

Lemma present_position fn li q :
  existsb (sameKey fn li) q = true ->
  exists p, position fn li q = Some p /\ 1 <= p <= Z.of_nat (length q).
Proof.
  intros H. destruct (position fn li q) as [p|] eqn:P.
  - exists p. split; [reflexivity|].
    destruct (position_some _ _ _ _ P) as (pre & m & post & -> & _ & _ & ->).
    rewrite length_app. simpl. lia.
  - apply position_none in P. congruence.
Qed.

Lemma sessionInvariant_initial now0 : sessionInvariant (initialState now0).
Proof.
  split; [apply queueInvariant_initial|]. simpl.
  repeat split; auto; discriminate.
Qed.

Section Sessions.

Variable toUpperCase : jsstring -> jsstring.

Lemma submit_sessionInvariant now s :
  sessionInvariant s -> showAddForm s = true ->
  sessionInvariant (handleNameSubmit toUpperCase now s).
Proof.
  intros I G. split; [apply handleNameSubmit_queueInvariant, I|].
  destruct I as (_ & I1 & _ & I3 & _). specialize (I1 G).
  specialize (I3 I1). revert I3. rewrite <- join_userName.
  destruct (trim (userName s)) as [|c r] eqn:T.
  { rewrite join_empty by exact T. simpl. rewrite G, I1.
    repeat split; tauto || discriminate. }
  assert (Hne : trim (userName s) <> []) by congruence.
  destruct (existsb (sameKey (fst (parseName toUpperCase (userName s)))
              (snd (parseName toUpperCase (userName s)))) (queueList s)) eqn:E.
  { rewrite join_duplicate by assumption. simpl. rewrite G, I1.
    repeat split; tauto || discriminate. }
  rewrite (join_success toUpperCase _ now s Hne E).
  cbn [showAddForm isInQueue userName formError userFirstName userLastInitial
       queueList].
  intros _. repeat split; try discriminate.
  intros _. rewrite existsb_app. cbn [existsb].
  rewrite (proj2 (sameKey_true _ _ _)) by (split; reflexivity).
  now rewrite orb_true_r.
Qed.

Lemma dispatch_sessionInvariant s e s' :
  sessionInvariant s -> dispatch toUpperCase s e = Some s' ->
  sessionInvariant s'.
Proof.
  intros I. destruct e as [|value|now| |]; unfold dispatch;
    match goal with |- (if ?g then _ else _) = _ -> _ =>
      destruct g eqn:G; [|discriminate] end;
    intros H; injection H as <-.
  - (* Join Queue button *)
    unfold joinButtonShown in G. apply negb_true_iff in G.
    destruct I as (Q & _ & _ & I3 & I4). split; [exact Q|]. simpl.
    rewrite G. repeat split; try discriminate; apply I3; exact G.
  - (* typing *)
    unfold formShown in G. destruct I as (Q & I1 & _ & I3 & I4).
    split; [exact Q|]. simpl. rewrite G.
    repeat split; try discriminate; auto; apply I3; auto.
  - (* submit *)
    now apply submit_sessionInvariant.
  - (* cancel *)
    unfold formShown in G. destruct I as (Q & I1 & _ & I3 & I4).
    split; [exact Q|]. simpl.
    repeat split; try discriminate; auto; apply I3; auto.
  - (* leave *)
    unfold statusShown in G. apply andb_true_iff in G as [G _].
    destruct I as (Q & I1 & I2 & _ & _).
    split; [now apply queueInvariant_filter|]. simpl.
    split; [intros _; reflexivity|]. split; [exact I2|].
    split; [intros _; split; reflexivity | discriminate].
Qed.

Lemma session_sessionInvariant events s s' :
  sessionInvariant s -> session toUpperCase events s = Some s' ->
  sessionInvariant s'.
Proof.
  revert s. induction events as [|e events IH]; intros s I; simpl.
  - intros H. injection H as <-. exact I.
  - destruct (dispatch toUpperCase s e) as [s1|] eqn:D; [|discriminate].
    apply IH. now apply (dispatch_sessionInvariant s e s1).
Qed.

End Sessions.

Lemma sessionInvariant_status s :
  sessionInvariant s -> statusShown s = isInQueue s.
Proof.
  intros (_ & _ & _ & _ & I4). unfold statusShown.
  destruct (isInQueue s); [|reflexivity].
  destruct (present_position _ _ _ (I4 eq_refl)) as (p & P & Hp & _).
  unfold userPosition. rewrite P. simpl.
  replace (p =? 0) with false by (symmetry; apply Z.eqb_neq; lia). reflexivity.
Qed.

(** X11. Along every session the page shows exactly one of the Join Queue
    button and the status panel with its Leave button, the panel exactly
    when [isInQueue] holds; and the form is never open while the session is
    in the queue, so a session cannot submit a name while it holds an
    entry. *)
Theorem session_controls_exclusive (toUpperCase : jsstring -> jsstring)
    (now0 : Z) (events : list Event) (s : State) :
  session toUpperCase events (initialState now0) = Some s ->
  statusShown s = isInQueue s /\
  joinButtonShown s = negb (statusShown s) /\
  (formShown s = true -> statusShown s = false) /\
  (statusShown s = true -> forall now,
     dispatch toUpperCase s (SubmitForm now) = None).
Proof.
  intros H.
  pose proof (session_sessionInvariant toUpperCase events _ s
                (sessionInvariant_initial now0) H) as I.
  pose proof (sessionInvariant_status s I) as S.
  destruct I as (_ & I1 & _). rewrite S. unfold joinButtonShown, formShown.
  repeat split; auto.
  intros Q now. unfold dispatch, formShown.
  destruct (showAddForm s); [|reflexivity].
  rewrite (I1 eq_refl) in Q. discriminate Q.
Qed.

(** X12. Along every session, whenever the form is closed its input is
    empty and no error text is set: the form always opens blank, and an
    error message exists only while the form is open. *)
Theorem session_closed_form_blank (toUpperCase : jsstring -> jsstring)
    (now0 : Z) (events : list Event) (s : State) :
  session toUpperCase events (initialState now0) = Some s ->
  showAddForm s = false ->
  userName s = [] /\ formError s = [] /\ surfacedError s = None /\
  userName (openForm s) = [] /\ formError (openForm s) = [].
Proof.
  intros H C.
  destruct (session_sessionInvariant toUpperCase events _ s
              (sessionInvariant_initial now0) H) as (_ & _ & I2 & _).
  destruct (I2 C) as [U F]. unfold surfacedError. simpl. rewrite U, F.
  repeat split.
Qed.

(** X13. Along every session the flag [isInQueue] tells the truth about the
    list: when it is set the session's key has a position between 1 and
    the length of the list, and when it is clear the session's key is
    ([''], ['']) and has no position. *)
Theorem session_flag_matches_list (toUpperCase : jsstring -> jsstring)
    (now0 : Z) (events : list Event) (s : State) :
  session toUpperCase events (initialState now0) = Some s ->
  (isInQueue s = true ->
     exists p, userPosition s = Some p /\
               1 <= p <= Z.of_nat (length (queueList s))) /\
  (isInQueue s = false ->
     userFirstName s = [] /\ userLastInitial s = [] /\ userPosition s = None).
Proof.
  intros H.
  destruct (session_sessionInvariant toUpperCase events _ s
              (sessionInvariant_initial now0) H) as ((_ & _ & F) & _ & _ & I3 & I4).
  split.
  - intros Q. exact (present_position _ _ _ (I4 Q)).
  - intros Q. destruct (I3 Q) as [A B]. repeat split; auto.
    unfold userPosition. rewrite A, B.
    now apply position_absent, properFirstName_no_empty_key.
Qed.

(** X14. Along every session, pressing Leave removes exactly one member,
    the session's own: the list gets one shorter, the key the session held
    has no position any more, and the page goes back to the Join Queue
    button. *)
Theorem session_leave_removes_own_entry (toUpperCase : jsstring -> jsstring)
    (now0 : Z) (events : list Event) (s s' : State) :
  session toUpperCase events (initialState now0) = Some s ->
  dispatch toUpperCase s ClickLeave = Some s' ->
  S (length (queueList s')) = length (queueList s) /\
  position (userFirstName s) (userLastInitial s) (queueList s') = None /\
  userPosition s' = None /\
  joinButtonShown s' = true /\ statusShown s' = false.
Proof.
  intros H D.
  pose proof (session_sessionInvariant toUpperCase events _ s
                (sessionInvariant_initial now0) H) as I.
  pose proof (dispatch_sessionInvariant toUpperCase s ClickLeave s' I D) as I'.
  pose proof (sessionInvariant_status s I) as S.
  pose proof (sessionInvariant_status s' I') as S'.
  simpl in D. destruct (statusShown s) eqn:G; [|discriminate].
  injection D as <-.
  destruct I as ((_ & U & _) & _ & _ & _ & I4).
  destruct (present_position _ _ _ (I4 (eq_sym S))) as (p & P & _).
  destruct (position_some _ _ _ _ P) as (pre & m & post & E & _ & K & _).
  rewrite E in U.
  destruct (filter_unique_key _ _ pre m post U K) as [A Fl].
  destruct I' as ((_ & _ & F') & _).
  rewrite S'. unfold joinButtonShown, userPosition, handleRemoveFromQueue in *.
  cbn [queueList isInQueue userFirstName userLastInitial] in *.
  rewrite E, Fl in *. repeat split.
  - rewrite !length_app. simpl. lia.
  - now apply position_absent.
  - now apply position_absent, properFirstName_no_empty_key.
Qed.

(** ** The rendered list *)

Lemma rowsFrom_app i fn li a b :
  rowsFrom i fn li (a ++ b) =
  rowsFrom i fn li a ++ rowsFrom (i + Z.of_nat (length a)) fn li b.
Proof.
  revert i. induction a as [|x a IH]; intros i; simpl rowsFrom; simpl app.
  - now rewrite Z.add_0_r.
  - rewrite IH. do 3 f_equal. simpl length. lia.
Qed.

Lemma rowsFrom_length i fn li q : length (rowsFrom i fn li q) = length q.
Proof. revert i. induction q; intros i; simpl; auto. Qed.

Lemma rowsFrom_unflagged i fn li q :
  existsb (sameKey fn li) q = false ->
  Forall (fun r => isCurrentUser r = false) (rowsFrom i fn li q).
Proof.
  revert i. induction q as [|x q IH]; intros i; simpl; [constructor|].
  intros H. apply orb_false_iff in H as [Hx Hq]. constructor; auto.
Qed.

Lemma rowsFrom_nth i fn li q n r :
  nth_error (rowsFrom i fn li q) n = Some r ->
  exists m, nth_error q n = Some m /\
            r = renderRow fn li m (i + Z.of_nat n).
Proof.
  revert i n. induction q as [|x q IH]; intros i [|n]; simpl;
    try discriminate.
  - intros H. injection H as <-. exists x. now rewrite Z.add_0_r.
  - intros H. destruct (IH _ _ H) as (m & Hm & ->). exists m.
    split; [exact Hm|]. f_equal. lia.
Qed.

Lemma rowsFrom_keys i fn li q :
  map rowKey (rowsFrom i fn li q) = map id q.
Proof.
  revert i. induction q as [|x q IH]; intros i; simpl; [reflexivity|].
  now rewrite IH.
Qed.

(** X15. The list and the status panel agree. When the keys present are
    pairwise different and the session has position [p], exactly one row
    is marked as the current user: it is the [p]-th row, it carries badge
    [p] and the session's name, and the wait time it shows is the one the
    panel shows, [calculateEstimatedWaitTime(p)]. When the session has no
    position, no row is marked. *)
Theorem rows_highlight_matches_panel (s : State) :
  uniqueKeys (queueList s) ->
  (userPosition s = None ->
     Forall (fun r => isCurrentUser r = false) (rows s)) /\
  (forall p, userPosition s = Some p ->
     exists before r after,
       rows s = before ++ r :: after /\
       Z.of_nat (length before) + 1 = p /\
       badge r = p /\ isCurrentUser r = true /\
       nameText r = displayName (userFirstName s) (userLastInitial s) /\
       waitTime r = calculateEstimatedWaitTime p /\
       Forall (fun x => isCurrentUser x = false) (before ++ after)).
Proof.
  intros U. unfold userPosition, rows. split.
  - intros H. apply rowsFrom_unflagged. now apply position_none.
  - intros p H.
    destruct (position_some _ _ _ _ H) as (pre & m & post & E & _ & K & ->).
    rewrite E in *.
    destruct (filter_unique_key _ _ pre m post U K) as [A _].
    rewrite existsb_app in A. apply orb_false_iff in A as [Apre Apost].
    rewrite rowsFrom_app. cbn [rowsFrom].
    eexists _, _, _. split; [reflexivity|].
    rewrite rowsFrom_length. cbn [badge isCurrentUser nameText waitTime renderRow].
    apply sameKey_true in K as K'. destruct K' as [-> ->].
    repeat split; try assumption.
    apply Forall_app. split; now apply rowsFrom_unflagged.
Qed.

(** X16. The rows are numbered from 1 in queue order, row [n] showing the
    wait time of position [n] and the name of the [n]-th member; and in
    every state reached from the first render the React keys of the rows,
    the member ids, are pairwise different. *)
Theorem rows_numbered (toUpperCase : jsstring -> jsstring)
    (now0 : Z) (ops : list Op) :
  length (rows (run toUpperCase ops (initialState now0))) =
    length (queueList (run toUpperCase ops (initialState now0))) /\
  NoDup (map rowKey (rows (run toUpperCase ops (initialState now0)))) /\
  (forall n r,
     nth_error (rows (run toUpperCase ops (initialState now0))) n = Some r ->
     badge r = Z.of_nat n + 1 /\
     waitTime r = calculateEstimatedWaitTime (Z.of_nat n + 1) /\
     exists m,
       nth_error (queueList (run toUpperCase ops (initialState now0))) n
         = Some m /\
       rowKey r = id m /\
       nameText r = displayName (firstName m) (lastInitial m)).
Proof.
  set (s := run toUpperCase ops (initialState now0)).
  assert (I : idsIncreasing (queueList s))
    by apply run_idsIncreasing, idsIncreasing_initial.
  unfold rows. split; [apply rowsFrom_length|]. split.
  - rewrite rowsFrom_keys. now apply idsIncreasing_NoDup.
  - intros n r H. destruct (rowsFrom_nth _ _ _ _ _ _ H) as (m & Hm & ->).
    simpl. repeat split. exists m. repeat split. exact Hm.
Qed.

(** ** Whitespace around the name *)

Lemma dropWhile_app_all {A} (p : A -> bool) l s :
  Forall (fun x => p x = true) l -> dropWhile p (l ++ s) = dropWhile p s.
Proof. induction 1 as [|x l Hx _ IH]; simpl; [|rewrite Hx]; auto. Qed.

Lemma dropWhile_app_some {A} (p : A -> bool) a b x t :
  dropWhile p a = x :: t -> dropWhile p (a ++ b) = (x :: t) ++ b.
Proof.
  induction a as [|y a IH]; simpl; [discriminate|].
  destruct (p y); [exact IH|]. intros H. injection H as -> ->. reflexivity.
Qed.

Lemma trimEnd_app_all s r :
  Forall (fun c => isWhiteSpace c = true) r -> trimEnd (s ++ r) = trimEnd s.
Proof.
  intros H. unfold trimEnd. rewrite rev_app_distr.
  rewrite dropWhile_app_all; [reflexivity | now apply Forall_rev].
Qed.

Lemma trim_padding l raw r :
  Forall (fun c => isWhiteSpace c = true) l ->
  Forall (fun c => isWhiteSpace c = true) r ->
  trim (l ++ raw ++ r) = trim raw.
Proof.
  intros Hl Hr. unfold trim, trimStart. rewrite dropWhile_app_all by exact Hl.
  destruct (dropWhile isWhiteSpace raw) as [|x t] eqn:D.
  - assert (Hraw : Forall (fun c => isWhiteSpace c = true) raw).
    { destruct (dropWhile_suffix isWhiteSpace raw) as (pre & E & F).
      rewrite D, app_nil_r in E. now subst pre. }
    rewrite dropWhile_all; [reflexivity | apply Forall_app; auto].
  - rewrite (dropWhile_app_some _ _ r _ _ D). now apply trimEnd_app_all.
Qed.

(** X17. Whitespace typed before or after the name makes no difference to
    a join: the trimmed value, the parsed key, the error reported and the
    resulting list are those of the name without the padding. *)
Theorem join_ignores_padding (toUpperCase : jsstring -> jsstring)
    (l raw r : jsstring) (now : Z) (s : State) :
  Forall (fun c => isWhiteSpace c = true) l ->
  Forall (fun c => isWhiteSpace c = true) r ->
  trim (l ++ raw ++ r) = trim raw /\
  parseName toUpperCase (l ++ raw ++ r) = parseName toUpperCase raw /\
  surfacedError (join toUpperCase (l ++ raw ++ r) now s)
    = surfacedError (join toUpperCase raw now s) /\
  queueList (join toUpperCase (l ++ raw ++ r) now s)
    = queueList (join toUpperCase raw now s).
Proof.
  intros Hl Hr. pose proof (trim_padding l raw r Hl Hr) as T.
  assert (P : parseName toUpperCase (l ++ raw ++ r) = parseName toUpperCase raw)
    by (unfold parseName; now rewrite T).
  split; [exact T|]. split; [exact P|].
  destruct (trim raw) as [|c t] eqn:E.
  - rewrite !join_empty by congruence. split; reflexivity.
  - assert (N1 : trim raw <> []) by congruence.
    assert (N2 : trim (l ++ raw ++ r) <> []) by congruence.
    destruct (existsb (sameKey (fst (parseName toUpperCase raw))
                (snd (parseName toUpperCase raw))) (queueList s)) eqn:X.
    + rewrite (join_duplicate toUpperCase raw now s N1 X).
      rewrite join_duplicate; [split; reflexivity | exact N2 | now rewrite P].
    + rewrite (join_success toUpperCase raw now s N1 X).
      rewrite join_success; [rewrite P; split; reflexivity | exact N2
                            | now rewrite P].
Qed.

(** ** Edge of the id rule, and what a session can do to the list *)

(** X18. On an empty list the [0] inside [Math.max(..., 0)] decides: a
    non-blank name joins with id 1 and position 1, whatever ids were in use
    before the list ran empty. *)
Theorem join_empty_queue (toUpperCase : jsstring -> jsstring)
    (raw : jsstring) (now : Z) (s : State) :
  trim raw <> [] -> queueList s = [] ->
  map id (queueList (join toUpperCase raw now s)) = [1] /\
  userPosition (join toUpperCase raw now s) = Some 1 /\
  surfacedError (join toUpperCase raw now s) = None.
Proof.
  intros Hne E.
  assert (A : existsb (sameKey (fst (parseName toUpperCase raw))
                (snd (parseName toUpperCase raw))) (queueList s) = false)
    by now rewrite E.
  rewrite (join_success toUpperCase raw now s Hne A). rewrite E.
  unfold userPosition.
  cbn [queueList userFirstName userLastInitial app].
  split; [reflexivity|]. split; [|reflexivity].
  apply (position_split _ _ [] _ []); [reflexivity | now apply sameKey_true].
Qed.

Section OwnEntry.

Variable toUpperCase : jsstring -> jsstring.

Lemma dispatch_seedPlusOwn now0 s e s' :
  sessionInvariant s -> seedPlusOwn now0 s ->
  dispatch toUpperCase s e = Some s' -> seedPlusOwn now0 s'.
Proof.
  intros I P. destruct e as [|value|now| |]; unfold dispatch;
    match goal with |- (if ?g then _ else _) = _ -> _ =>
      destruct g eqn:G; [|discriminate] end;
    intros H; injection H as <-; try exact P.
  - (* submit *)
    destruct I as (_ & I1 & _). unfold formShown in G. specialize (I1 G).
    destruct P as [[_ Q] | [C _]]; [|congruence].
    rewrite <- join_userName.
    destruct (trim (userName s)) as [|c r] eqn:T.
    { rewrite join_empty by exact T. left. split; assumption. }
    assert (Hne : trim (userName s) <> []) by congruence.
    destruct (existsb (sameKey (fst (parseName toUpperCase (userName s)))
                (snd (parseName toUpperCase (userName s)))) (queueList s)) eqn:E.
    { rewrite join_duplicate by assumption. left. split; assumption. }
    rewrite (join_success toUpperCase _ now s Hne E). right.
    cbn [isInQueue queueList userFirstName userLastInitial].
    split; [reflexivity|]. exists now. rewrite Q. reflexivity.
  - (* leave *)
    unfold statusShown in G. apply andb_true_iff in G as [G _].
    destruct P as [[C _] | [_ (t & Q)]]; [congruence|].
    destruct I as ((_ & U & _) & _). left. split; [reflexivity|].
    unfold handleRemoveFromQueue. cbn [queueList]. rewrite Q in *.
    destruct (filter_unique_key (userFirstName s) (userLastInitial s)
                (initialQueue now0) _ [] U) as [_ ->].
    + now apply sameKey_true.
    + apply app_nil_r.
Qed.

Lemma session_seedPlusOwn now0 events s s' :
  sessionInvariant s -> seedPlusOwn now0 s ->
  session toUpperCase events s = Some s' ->
  sessionInvariant s' /\ seedPlusOwn now0 s'.
Proof.
  revert s. induction events as [|e events IH]; intros s I P; simpl.
  - intros H. injection H as <-. auto.
  - destruct (dispatch toUpperCase s e) as [s1|] eqn:D; [|discriminate].
    apply IH.
    + now apply (dispatch_sessionInvariant toUpperCase s e s1).
    + now apply (dispatch_seedPlusOwn now0 s e s1).
Qed.

End OwnEntry.

(** X19. From the page a session can only add and remove its own entry:
    along every session the list is the three initial members, followed by
    the session's own entry, with id 4, while it is in the queue.  So the
    only position the panel ever shows is 4, with wait time [20m]. *)
Theorem session_list_is_seed_plus_own (toUpperCase : jsstring -> jsstring)
    (now0 : Z) (events : list Event) (s : State) :
  session toUpperCase events (initialState now0) = Some s ->
  seedPlusOwn now0 s /\
  (3 <= length (queueList s) <= 4)%nat /\
  (forall p, userPosition s = Some p ->
     p = 4 /\ calculateEstimatedWaitTime p = js "20m").
Proof.
  intros H.
  destruct (session_seedPlusOwn toUpperCase now0 events _ s
              (sessionInvariant_initial now0)
              (or_introl (conj eq_refl eq_refl)) H) as [I P].
  split; [exact P|].
  destruct I as ((_ & U & F) & _ & _ & I3 & _).
  destruct P as [[C Q] | [C (t & Q)]].
  - split; [rewrite Q; simpl; lia|]. intros p Hp. exfalso.
    destruct (I3 C) as [A B]. unfold userPosition in Hp. rewrite A, B in Hp.
    rewrite position_absent in Hp; [discriminate|].
    now apply properFirstName_no_empty_key.
  - split; [rewrite Q, length_app; simpl; lia|]. intros p Hp.
    unfold userPosition in Hp. rewrite Q in Hp, U.
    destruct (filter_unique_key (userFirstName s) (userLastInitial s)
                (initialQueue now0) _ [] U) as [A _];
      [now apply sameKey_true|].
    rewrite app_nil_r in A. rewrite position_split in Hp;
      [|exact A|now apply sameKey_true].
    injection Hp as <-. split; reflexivity.
Qed.

(** ** The further properties on concrete inputs *)

Lemma join_again_rejected_witness :
  surfacedError
    (join upperBasicLatin (js "Alice Brown") 2000
       (join upperBasicLatin (js "Alice Brown") 1000 (initialState 0)))
    = Some DuplicateError /\
  length (queueList
    (join upperBasicLatin (js "Alice Brown") 2000
       (join upperBasicLatin (js "Alice Brown") 1000 (initialState 0))))
    = 4%nat.
Proof.
  destruct (join_again_rejected upperBasicLatin (js "Alice Brown") 1000 2000
              (initialState 0)) as [A B].
  - discriminate.
  - split; [exact A | rewrite B; reflexivity].
Defined.

Lemma join_keeps_positions_witness :
  position (js "Jane") (js "S")
    (queueList (join upperBasicLatin (js "Alice Brown") 1000 (initialState 0)))
    = Some 2.
Proof.
  apply (join_keeps_positions upperBasicLatin (js "Alice Brown") 1000
           (initialState 0) (js "Jane") (js "S") 2).
  reflexivity.
Defined.

Lemma join_then_leave_restores_witness :
  queueList (handleRemoveFromQueue
    (join upperBasicLatin (js "Alice Brown") 1000 (initialState 0)))
    = initialQueue 0.
Proof.
  apply (join_then_leave_restores upperBasicLatin (js "Alice Brown") 1000
           (initialState 0)).
  - discriminate.
  - apply initialQueue_absent. reflexivity.
Defined.

(** John, first of three, leaves: Mike moves from 3 to 2. *)
Lemma leave_moves_up_witness :
  position (js "Mike") (js "J")
    (queueList (leave (js "John") (js "D") (initialState 0))) = Some 2.
Proof.
  apply (leave_moves_up (js "John") (js "D") (js "Mike") (js "J")
           (initialState 0) 1 3).
  - apply uniqueKeys_initial.
  - reflexivity.
  - reflexivity.
  - discriminate.
Defined.

Lemma parseName_firstName_proper_witness :
  exists t, fst (parseName upperBasicLatin (js "  John Doe")) = 74%N :: t.
Proof.
  destruct (parseName_firstName_proper upperBasicLatin (js "  John Doe")
              74%N (js "ohn Doe") eq_refl) as (t & E & _).
  exists t. exact E.
Defined.

Lemma reachable_leave_removes_pth_witness :
  map id (queueList
    (leave (js "Jane") (js "S")
       (run upperBasicLatin [Join (js "Alice Brown") 1000] (initialState 0))))
    = [1; 3; 4].
Proof.
  destruct (reachable_leave_removes_pth upperBasicLatin 0
              [Join (js "Alice Brown") 1000] (js "Jane") (js "S") 2 eq_refl)
    as [E _].
  rewrite E. reflexivity.
Defined.

Lemma session_controls_exclusive_witness :
  statusShown
    (join upperBasicLatin (js "Alice Brown") 1000 (openForm (initialState 0)))
    = true /\
  joinButtonShown
    (join upperBasicLatin (js "Alice Brown") 1000 (openForm (initialState 0)))
    = false.
Proof.
  destruct (session_controls_exclusive upperBasicLatin 0
              [ClickJoinQueue; TypeName (js "Alice Brown"); SubmitForm 1000]
              (join upperBasicLatin (js "Alice Brown") 1000
                 (openForm (initialState 0))) eq_refl) as (A & B & _).
  split; [rewrite A; reflexivity | rewrite B, A; reflexivity].
Defined.

(** A rejected name, then Cancel: the form is closed and blank again. *)
Lemma session_closed_form_blank_witness :
  userName (cancelForm
    (join upperBasicLatin (js "John Doe") 1000 (openForm (initialState 0))))
    = [] /\
  formError (cancelForm
    (join upperBasicLatin (js "John Doe") 1000 (openForm (initialState 0))))
    = [].
Proof.
  destruct (session_closed_form_blank upperBasicLatin 0
              [ClickJoinQueue; TypeName (js "John Doe"); SubmitForm 1000;
               ClickCancel]
              (cancelForm (join upperBasicLatin (js "John Doe") 1000
                 (openForm (initialState 0)))) eq_refl eq_refl)
    as (A & B & _).
  split; [exact A | exact B].
Defined.

Lemma session_flag_matches_list_witness :
  exists p,
    userPosition
      (join upperBasicLatin (js "Alice Brown") 1000 (openForm (initialState 0)))
      = Some p /\ 1 <= p <= 4.
Proof.
  destruct (session_flag_matches_list upperBasicLatin 0
              [ClickJoinQueue; TypeName (js "Alice Brown"); SubmitForm 1000]
              (join upperBasicLatin (js "Alice Brown") 1000
                 (openForm (initialState 0))) eq_refl) as [A _].
  exact (A eq_refl).
Defined.

Lemma session_leave_removes_own_entry_witness :
  length (queueList (handleRemoveFromQueue
    (join upperBasicLatin (js "Alice Brown") 1000 (openForm (initialState 0)))))
    = 3%nat /\
  joinButtonShown (handleRemoveFromQueue
    (join upperBasicLatin (js "Alice Brown") 1000 (openForm (initialState 0))))
    = true.
Proof.
  destruct (session_leave_removes_own_entry upperBasicLatin 0
              [ClickJoinQueue; TypeName (js "Alice Brown"); SubmitForm 1000]
              (join upperBasicLatin (js "Alice Brown") 1000
                 (openForm (initialState 0)))
              (handleRemoveFromQueue
                 (join upperBasicLatin (js "Alice Brown") 1000
                    (openForm (initialState 0))))
              eq_refl eq_refl) as (A & _ & _ & B & _).
  split; [|exact B]. apply eq_add_S. rewrite A. reflexivity.
Defined.

Lemma rows_highlight_matches_panel_witness :
  exists before r after,
    rows (join upperBasicLatin (js "Alice Brown") 1000 (initialState 0))
      = before ++ r :: after /\
    badge r = 4 /\ isCurrentUser r = true /\ waitTime r = js "20m".
Proof.
  destruct (rows_highlight_matches_panel
              (join upperBasicLatin (js "Alice Brown") 1000 (initialState 0)))
    as [_ H].
  - unfold uniqueKeys. simpl.
    repeat (constructor; [simpl; intuition discriminate|]). constructor.
  - destruct (H 4 eq_refl) as (b & r & a & E & _ & B & C & _ & W & _).
    exists b, r, a. repeat split; assumption.
Defined.

Lemma join_ignores_padding_witness :
  parseName upperBasicLatin (js "  " ++ js "John Doe" ++ [9%N; 32%N])
    = parseName upperBasicLatin (js "John Doe") /\
  surfacedError (join upperBasicLatin (js "  " ++ js "John Doe" ++ [9%N; 32%N])
                   1000 (initialState 0))
    = Some DuplicateError.
Proof.
  destruct (join_ignores_padding upperBasicLatin (js "  ") (js "John Doe")
              [9%N; 32%N] 1000 (initialState 0)) as (_ & P & E & _).
  - repeat constructor.
  - repeat constructor.
  - split; [exact P | rewrite E; reflexivity].
Defined.

(** All three initial members gone, then [Zoe] joins with id 1. *)
Lemma join_empty_queue_witness :
  map id (queueList
    (join upperBasicLatin (js "Zoe") 1000
       (run upperBasicLatin
          [Leave (js "John") (js "D"); Leave (js "Jane") (js "S");
           Leave (js "Mike") (js "J")] (initialState 0)))) = [1].
Proof.
  apply (join_empty_queue upperBasicLatin (js "Zoe") 1000
           (run upperBasicLatin
              [Leave (js "John") (js "D"); Leave (js "Jane") (js "S");
               Leave (js "Mike") (js "J")] (initialState 0))).
  - discriminate.
  - reflexivity.
Defined.

(** Join, leave, join again under another name: position 4 once more. *)
Lemma session_list_is_seed_plus_own_witness :
  userPosition
    (join upperBasicLatin (js "Bob C") 2000
       (openForm (handleRemoveFromQueue
          (join upperBasicLatin (js "Alice Brown") 1000
             (openForm (initialState 0)))))) = Some 4 /\
  (3 <= length (queueList
    (join upperBasicLatin (js "Bob C") 2000
       (openForm (handleRemoveFromQueue
          (join upperBasicLatin (js "Alice Brown") 1000
             (openForm (initialState 0))))))) <= 4)%nat.
Proof.
  destruct (session_list_is_seed_plus_own upperBasicLatin 0
              [ClickJoinQueue; TypeName (js "Alice Brown"); SubmitForm 1000;
               ClickLeave; ClickJoinQueue; TypeName (js "Bob C");
               SubmitForm 2000]
              (join upperBasicLatin (js "Bob C") 2000
                 (openForm (handleRemoveFromQueue
                    (join upperBasicLatin (js "Alice Brown") 1000
                       (openForm (initialState 0))))))
              eq_refl) as (_ & L & _).
  split; [reflexivity | exact L].
Defined.
